(** * lnd_grpc: connection lifecycle and call resilience

    A shallow embedding of the connection core of the [lnd_grpc] client:

    - [Lightning.lightning_stub] (lightning.py), the property that lazily
      (re)builds the gRPC channel and the [LightningStub] bound to it;
    - [retry] and [get_persistent_client] (lnd_grpc.py), the retrying invoker;
    - [ObjectProxy] (object_proxy.py), the attribute-intercepting proxy;
    - a few operations of the catalogue whose behaviour is specified:
      [new_address], [add_invoice], [send_request_generator],
      [send_to_route_generator], the [version] property, [connect],
      [connect_peer], [abandon_channel], [send_payment_sync], [pay_invoice].

    Python objects are mutable and calls have effects on the gRPC runtime, so
    the code is embedded in a state-and-exception monad [M] over a [World]:
    the fields of the client object, the wall clock, and the chronological
    log of what was asked of the gRPC runtime. *)

From Stdlib Require Import List String Ascii Bool Arith ZArith Lia.
Import ListNotations.

Local Open Scope string_scope.
Local Open Scope list_scope.

(** ** Values of the gRPC library *)

(** [grpc.ChannelConnectivity], delivered to connectivity callbacks. *)
Inductive ChannelConnectivity : Type :=
| IDLE | CONNECTING | READY | TRANSIENT_FAILURE | SHUTDOWN.

(** [grpc.StatusCode]. *)
Inductive StatusCode : Type :=
| OK | CANCELLED | UNKNOWN | INVALID_ARGUMENT | DEADLINE_EXCEEDED | NOT_FOUND
| ALREADY_EXISTS | PERMISSION_DENIED | RESOURCE_EXHAUSTED
| FAILED_PRECONDITION | ABORTED | OUT_OF_RANGE | UNIMPLEMENTED | INTERNAL
| UNAVAILABLE | DATA_LOSS | UNAUTHENTICATED.

Definition StatusCode_eq_dec (a b : StatusCode) : {a = b} + {a <> b}.
Proof. decide equality. Defined.

(** [a == b] on status codes. *)
Definition StatusCode_eqb (a b : StatusCode) : bool :=
  if StatusCode_eq_dec a b then true else false.

(** The classes of the exceptions that occur in the embedded code. *)
Inductive ExnClass : Type :=
| _Rendezvous              (* grpc._channel._Rendezvous *)
| TypeError
| ValueError
| AttributeError
| OtherError (name : string).

(** An exception object: its class, the result of its [code()] method when it
    has one ([None] when [hasattr(e, "code")] is false), and its message. *)
Record exn : Type := mk_exn {
  exn_class : ExnClass;
  exn_code : option StatusCode;
  exn_details : string
}.

(** Python values that flow through the embedded operations.  A protobuf
    message is its type name and the keyword arguments it was built from. *)
#[warnings="-register-all"]
Inductive value : Type :=
| VNone
| VBool (b : bool)
| VInt (z : Z)
| VStr (s : string)
| VMsg (name : string) (fields : list (string * value))
| VExc (e : exn).

(** Keyword arguments, in call order. *)
Definition kwargs : Type := list (string * value).

(** [*args, **kwargs]. *)
Definition Args : Type := (list value * kwargs)%type.

(** [name in kw]. *)
Definition kw_mem (name : string) (kw : kwargs) : bool :=
  existsb (fun p => String.eqb (fst p) name) kw.

(** A protobuf message constructor, [ln.Name] applied to keyword arguments. *)
Definition message (name : string) (kw : kwargs) : value := VMsg name kw.

(** ** The client object and the world it lives in *)

(** A [grpc.Channel] object, identified by its allocation number. *)
Definition Channel : Type := nat.

(** An [lnrpc.LightningStub], bound to the channel it was created on. *)
Record LightningStub : Type := mk_stub { stub_channel : Channel }.

(** The fields of a [Lightning] client that the connection core reads and
    writes.  [_lightning_stub] and [_version] are set by
    [Lightning.__init__]; the others belong to [BaseClient]. *)
Record Lightning : Type := mk_Lightning {
  _lightning_stub : option LightningStub;
  _version : option string;
  channel : option Channel;
  connection_status : option ChannelConnectivity;
  connection_status_change : bool;
  grpc_address : string
}.

(** What the code asks of the gRPC runtime and of the operating system. *)
Inductive Event : Type :=
| secure_channel (ch : Channel) (target : string)  (* grpc.secure_channel *)
| subscribe (ch : Channel)                         (* channel.subscribe *)
| stub_created (ch : Channel)                      (* lnrpc.LightningStub *)
| channel_closed (ch : Channel)                    (* channel.close *)
| rpc (ch : Channel) (method : string) (request : value)
| slept (seconds : Z).                             (* time.sleep *)

(** The state threaded through the code: the client object, the wall clock
    in whole seconds (the value [int(time.time())] would read), and the log
    of events, oldest first. *)
Record World : Type := mk_World {
  client : Lightning;
  now : Z;
  runtime : list Event
}.

(** ** The monad of Python statements *)

Inductive result (A : Type) : Type :=
| Return (a : A)
| Raise (e : exn).
Arguments Return {A} a.
Arguments Raise {A} e.

Definition M (A : Type) : Type := World -> result A * World.

Definition ret {A} (a : A) : M A := fun w => (Return a, w).

Definition raise {A} (e : exn) : M A := fun w => (Raise e, w).

Definition bind {A B} (c : M A) (k : A -> M B) : M B :=
  fun w =>
    match c w with
    | (Return a, w') => k a w'
    | (Raise e, w') => (Raise e, w')
    end.

(** [try: c  except Exception as e: h e]. *)
Definition try_except {A} (c : M A) (h : exn -> M A) : M A :=
  fun w =>
    match c w with
    | (Return a, w') => (Return a, w')
    | (Raise e, w') => h e w'
    end.

Declare Scope py_scope.
Delimit Scope py_scope with py.
Notation "x <- c ;; k" := (bind c (fun x => k))
  (at level 61, c at next level, right associativity) : py_scope.
Notation "c ;; k" := (bind c (fun _ => k))
  (at level 61, right associativity) : py_scope.
Local Open Scope py_scope.

(** [self]: read the client object. *)
Definition get_self : M Lightning := fun w => (Return (client w), w).

(** Assignment to the fields of [self]. *)
Definition update_self (f : Lightning -> Lightning) : M unit :=
  fun w => (Return tt, mk_World (f (client w)) (now w) (runtime w)).

Definition set__lightning_stub (s : option LightningStub) (self : Lightning) : Lightning :=
  mk_Lightning s (_version self) (channel self) (connection_status self)
               (connection_status_change self) (grpc_address self).

Definition set_channel (c : option Channel) (self : Lightning) : Lightning :=
  mk_Lightning (_lightning_stub self) (_version self) c (connection_status self)
               (connection_status_change self) (grpc_address self).

Definition set_connection_status (s : option ChannelConnectivity) (self : Lightning) : Lightning :=
  mk_Lightning (_lightning_stub self) (_version self) (channel self) s
               (connection_status_change self) (grpc_address self).

Definition set_connection_status_change (b : bool) (self : Lightning) : Lightning :=
  mk_Lightning (_lightning_stub self) (_version self) (channel self)
               (connection_status self) b (grpc_address self).

(** Append one event to the log. *)
Definition emit (e : Event) : M unit :=
  fun w => (Return tt, mk_World (client w) (now w) (runtime w ++ [e])).

(** ** Counting in the log *)

Definition is_secure_channel (e : Event) : bool :=
  match e with secure_channel _ _ => true | _ => false end.

Definition is_stub_created (e : Event) : bool :=
  match e with stub_created _ => true | _ => false end.

Definition is_rpc (e : Event) : bool :=
  match e with rpc _ _ _ => true | _ => false end.

Definition is_channel_closed (e : Event) : bool :=
  match e with channel_closed _ => true | _ => false end.

Definition count (p : Event -> bool) (log : list Event) : nat :=
  List.length (List.filter p log).

(** Number of channels constructed so far. *)
Definition builds (log : list Event) : nat := count is_secure_channel log.

(** Number of stubs constructed so far. *)
Definition stubs (log : list Event) : nat := count is_stub_created log.

(** Number of remote calls issued so far. *)
Definition calls (log : list Event) : nat := count is_rpc log.

(** [closed ch log]: [ch.close()] has been called. *)
Definition closed (ch : Channel) (log : list Event) : bool :=
  existsb (fun e => match e with channel_closed c => Nat.eqb c ch | _ => false end) log.

(** ** The gRPC runtime *)

(** [grpc.secure_channel(target=..., credentials=..., options=...)]: a new
    channel object, distinct from every channel made before. *)
Definition grpc_secure_channel (target : string) : M Channel :=
  fun w =>
    let ch := builds (runtime w) in
    (Return ch, mk_World (client w) (now w) (runtime w ++ [secure_channel ch target])).

(** [channel.subscribe(callback)]. *)
Definition channel_subscribe (ch : Channel) : M unit := emit (subscribe ch).

(** [lnrpc.LightningStub(channel)]. *)
Definition LightningStub_new (ch : Channel) : M LightningStub :=
  emit (stub_created ch) ;; ret (mk_stub ch).

(** [channel.close()]. *)
Definition channel_close (ch : Channel) : M unit := emit (channel_closed ch).

(** [time.sleep(seconds)]: the clock advances and the pause is logged. *)
Definition time_sleep (seconds : Z) : M unit :=
  fun w => (Return tt, mk_World (client w) (now w + seconds)%Z (runtime w ++ [slept seconds])).

(** [int(time.time())]. *)
Definition int_time_time : M Z := fun w => (Return (now w), w).

(** ** Lightning.lightning_stub (lightning.py) *)

(** [x is not None]. *)
Definition is_not_None {A} (x : option A) : bool :=
  match x with Some _ => true | None => false end.

(** [x is False]. *)
Definition is_False (b : bool) : bool := negb b.

(** Lines 88-108 of lightning.py: the part of the property that runs when
    the cached stub is not returned. *)
Definition lightning_stub_fresh : M LightningStub :=
  self <- get_self ;;
  (* otherwise, start by creating a fresh channel *)
  ch <- grpc_secure_channel (grpc_address self) ;;
  update_self (set_channel (Some ch)) ;;
  (* subscribe to channel connectivity updates with callback *)
  channel_subscribe ch ;;
  (* create the new stub *)
  stub <- LightningStub_new ch ;;
  update_self (set__lightning_stub (Some stub)) ;;
  self' <- get_self ;;
  match connection_status self' with
  | None =>
      update_self (set_connection_status_change true) ;;
      ret stub
  | Some _ =>
      update_self (set_connection_status_change false) ;;
      ret stub
  end.

(** The property [Lightning.lightning_stub]. *)
Definition lightning_stub : M LightningStub :=
  self <- get_self ;;
  match _lightning_stub self with
  | Some stub =>
      if is_False (connection_status_change self) then ret stub
      else lightning_stub_fresh
  | None => lightning_stub_fresh
  end.

(** ** Construction of the client and connectivity callbacks *)

(** Modelled from the spec: [BaseClient.__init__] (base_client.py is not part
    of the sources at hand).  The spec's data model gives a connection no
    channel at first, the pre-observation connectivity state (which
    lightning.py calls ['None' is channel_status's initialization state]) and a
    dirty flag that starts true. *)
Definition BaseClient__init__ (address : string) (self : Lightning) : Lightning :=
  mk_Lightning (_lightning_stub self) (_version self) None None true address.

(** [Lightning.__init__]: sets [_lightning_stub] and [version] to [None],
    then runs the base initialiser. *)
Definition Lightning__init__ (address : string) : Lightning :=
  BaseClient__init__ address (mk_Lightning None None None None false "").

(** Modelled from the spec: [BaseClient.connectivity_event_logger], the
    callback subscribed to the channel.  The spec has it record the observed
    state and set the dirty flag on every state-change notification. *)
Definition connectivity_event_logger (state : ChannelConnectivity) (self : Lightning) : Lightning :=
  set_connection_status_change true (set_connection_status (Some state) self).

(** The runtime delivering one notification, then a sequence of them. *)
Definition notify (state : ChannelConnectivity) (w : World) : World :=
  mk_World (connectivity_event_logger state (client w)) (now w) (runtime w).

Definition notify_all (states : list ChannelConnectivity) (w : World) : World :=
  fold_left (fun w' s => notify s w') states w.

(** A world in which nothing has happened yet. *)
Definition boot (self : Lightning) (t : Z) : World := mk_World self t [].

(** ** Remote calls through the stub *)

Section Node.

(** The remote node together with the transport: what a call of [method] with
    [request] on channel [ch] produces, given everything that happened before
    it.  A failed call raises. *)
Variable lnd : list Event -> Channel -> string -> value -> result value.

(** [stub.Method(request)] for a unary method of the stub. *)
Definition stub_call (stub : LightningStub) (method : string) (request : value) : M value :=
  fun w =>
    let ch := stub_channel stub in
    (lnd (runtime w) ch method request,
     mk_World (client w) (now w) (runtime w ++ [rpc ch method request])).

(** The shape shared by the unary operations of the catalogue:
    [response = self.lightning_stub.Method(request); return response]. *)
Definition unary_rpc (method : string) (request : value) : M value :=
  stub <- lightning_stub ;;
  response <- stub_call stub method request ;;
  ret response.

(** [Lightning.wallet_balance]. *)
Definition wallet_balance : M value :=
  let request := message "WalletBalanceRequest" [] in
  unary_rpc "WalletBalance" request.

(** [Lightning.channel_balance]. *)
Definition channel_balance : M value :=
  let request := message "ChannelBalanceRequest" [] in
  unary_rpc "ChannelBalance" request.

(** [Lightning.get_info]. *)
Definition get_info : M value :=
  let request := message "GetInfoRequest" [] in
  unary_rpc "GetInfo" request.

(** The message of the [TypeError] built by [new_address]:
    ["invalid address type %s, ..." % address_type]. *)
Definition new_address_error (address_type : string) : exn :=
  mk_exn TypeError None
    ("invalid address type " ++ address_type
       ++ ", supported address type are: p2wkh and np2wkh").

(** [Lightning.new_address]. *)
Definition new_address (address_type : string) : M value :=
  if String.eqb address_type "p2wkh" then
    let request := message "NewAddressRequest" [("type", VStr "WITNESS_PUBKEY_HASH")] in
    unary_rpc "NewAddress" request
  else if String.eqb address_type "np2wkh" then
    let request := message "NewAddressRequest" [("type", VStr "NESTED_PUBKEY_HASH")] in
    unary_rpc "NewAddress" request
  else
    ret (VExc (new_address_error address_type)).

(** *** add_invoice and its default arguments *)

(** The default values of [add_invoice]'s parameters, as stored in the
    function object when its [def] statement is executed. *)
Record add_invoice_defaults : Type := mk_defaults {
  memo_default : string;
  value_default : Z;
  expiry_default : Z;
  creation_date_default : Z
}.

(** Executing [def add_invoice(self, memo="", value=0, expiry=3600,
    creation_date=int(time.time()), **kwargs)] in the class body, which
    happens when the module is imported: the default expressions are
    evaluated here. *)
Definition def_add_invoice : M add_invoice_defaults :=
  t <- int_time_time ;;
  ret (mk_defaults "" 0 3600 t).

(** An argument the caller may omit. *)
Definition or_default {A} (given : option A) (default : A) : A :=
  match given with Some a => a | None => default end.

(** The [ln.Invoice] request built by [add_invoice]. *)
Definition Invoice (memo : string) (val expiry creation_date : Z) (kw : kwargs) : value :=
  message "Invoice"
    ([("memo", VStr memo); ("value", VInt val); ("expiry", VInt expiry);
      ("creation_date", VInt creation_date)] ++ kw).

(** [Lightning.add_invoice], called on the function object whose defaults
    are [d]. *)
Definition add_invoice (d : add_invoice_defaults)
    (memo : option string) (val expiry creation_date : option Z) (kw : kwargs) : M value :=
  let memo := or_default memo (memo_default d) in
  let val := or_default val (value_default d) in
  let expiry := or_default expiry (expiry_default d) in
  let creation_date := or_default creation_date (creation_date_default d) in
  let request := Invoice memo val expiry creation_date kw in
  unary_rpc "AddInvoice" request.

End Node.

(** ** The retrying invoker (lnd_grpc.py) *)

(** [isinstance(e, _Rendezvous)], the test of the [except] clause. *)
Definition is_Rendezvous (e : exn) : bool :=
  match exn_class e with _Rendezvous => true | _ => false end.

(** [can_retry], the inner function of [retry]:
    [hasattr(e, "code") and e.code() == grpc.StatusCode.UNAVAILABLE]. *)
Definition can_retry (e : exn) : bool :=
  match exn_code e with
  | Some c => StatusCode_eqb c UNAVAILABLE
  | None => false
  end.

(** The object a proxy or the invoker works on.  Its fields are those of the
    client held by the [World]; what the record adds is its attribute lookup,
    [target.__getattribute__(name)], which may run a property and may raise
    [AttributeError]. *)
Inductive attribute : Type :=
| Data (v : value)
| Callable (f : Args -> M value).

Record Target : Type := mk_Target {
  getattribute : string -> M attribute
}.

(** [retry(target, target_callable, *args, **kwargs)]. *)
Definition retry {A} (target : Target) (target_callable : Args -> M A) (args : Args) : M A :=
  try_except (target_callable args)
    (fun e =>
       if is_Rendezvous e then
         if negb (can_retry e) then raise e else
         update_self (set_connection_status_change true) ;;
         self <- get_self ;;
         (match channel self with
          | Some ch => channel_close ch   (* Will leak if channel is not closed *)
          | None => ret tt
          end) ;;
         target_callable args
       else raise e).

(** ** ObjectProxy (object_proxy.py) *)

Definition Invoker : Type := Target -> (Args -> M value) -> Args -> M value.

Record ObjectProxy : Type := mk_ObjectProxy {
  _target : Target;
  _invoker : Invoker;
  _callable : option (Args -> M value)
}.

(** [callable(target_attr)]. *)
Definition callable (a : attribute) : bool :=
  match a with Callable _ => true | Data _ => false end.

(** What [ObjectProxy.__getattr__] returns: the attribute itself, or a new
    proxy around it. *)
Inductive proxied : Type :=
| Plain (v : value)
| Wrapped (p : ObjectProxy).

(** [ObjectProxy.__getattr__], the hook Python runs for the attributes the
    proxy does not define itself. *)
Definition __getattr__ (self : ObjectProxy) (name : string) : M proxied :=
  target_attr <- getattribute (_target self) name ;;
  match target_attr with
  | Data v => ret (Plain v)
  | Callable f => ret (Wrapped (mk_ObjectProxy (_target self) (_invoker self) (Some f)))
  end.

(** Calling [None] raises. *)
Definition NoneType_not_callable : exn :=
  mk_exn TypeError None "'NoneType' object is not callable".

(** [ObjectProxy.__call__]. *)
Definition __call__ (self : ObjectProxy) (args : Args) : M value :=
  _invoker self (_target self)
    (match _callable self with
     | Some f => f
     | None => fun _ => raise NoneType_not_callable
     end) args.

(** [get_persistent_client(client)]. *)
Definition get_persistent_client (client : Target) : ObjectProxy :=
  mk_ObjectProxy client (@retry value) None.

(** The attribute lookup of a [Lightning] client connected to the node
    [lnd], for the attributes used below: methods are bound callables, fields
    are data, anything else raises [AttributeError]. *)
Definition no_attribute (name : string) : exn :=
  mk_exn AttributeError None ("'Client' object has no attribute '" ++ name ++ "'").

Definition bad_arguments (name : string) : exn :=
  mk_exn TypeError None (name ++ "() got unexpected arguments").

Definition Lightning__getattribute__
    (lnd : list Event -> Channel -> string -> value -> result value)
    (name : string) : M attribute :=
  if String.eqb name "wallet_balance" then
    ret (Callable (fun args =>
      match args with
      | ([], []) => wallet_balance lnd
      | _ => raise (bad_arguments name)
      end))
  else if String.eqb name "channel_balance" then
    ret (Callable (fun args =>
      match args with
      | ([], []) => channel_balance lnd
      | _ => raise (bad_arguments name)
      end))
  else if String.eqb name "new_address" then
    ret (Callable (fun args =>
      match args with
      | ([VStr address_type], []) => new_address lnd address_type
      | ([], [("address_type", VStr address_type)]) => new_address lnd address_type
      | _ => raise (bad_arguments name)
      end))
  else if String.eqb name "grpc_address" then
    self <- get_self ;; ret (Data (VStr (grpc_address self)))
  else if String.eqb name "connection_status_change" then
    self <- get_self ;; ret (Data (VBool (connection_status_change self)))
  else raise (no_attribute name).

Definition Client (lnd : list Event -> Channel -> string -> value -> result value) : Target :=
  mk_Target (Lightning__getattribute__ lnd).

(** ** Request generators of the streaming payment operations *)

(** The body of a Python generator function: what it yields and what it does
    between yields, up to the end of the body. *)
Inductive Generator : Type :=
| Yield (y : value) (rest : Generator)
| Do (statement : M unit) (rest : Generator)
| Stop.

(** [next(g)]: run the body up to the next [yield].  The result is the value
    yielded, or [None] for [StopIteration], and the generator as it is left. *)
Fixpoint next (g : Generator) : M (option value * Generator) :=
  match g with
  | Yield y rest => ret (Some y, rest)
  | Do statement rest => statement ;; next rest
  | Stop => ret (None, Stop)
  end.

(** A consumer iterating the generator to its end, as the gRPC runtime does
    with a request iterator: the values it receives. *)
Fixpoint exhaust (g : Generator) : M (list value) :=
  match g with
  | Yield y rest => ys <- exhaust rest ;; ret (y :: ys)
  | Do statement rest => statement ;; exhaust rest
  | Stop => ret []
  end.

(** [Lightning.send_request_generator], a static method taking keyword
    arguments only. *)
Definition send_request_generator (kw : kwargs) : Generator :=
  let request := message "SendRequest" kw in
  Yield request
    (Do (time_sleep 5)   (* Magic sleep *)
       Stop).

(** An invoice object, of which the generator reads [r_hash]. *)
Record InvoiceObject : Type := mk_invoice {
  r_hash : value;
  payment_request : value;
  add_index : value
}.

(** [Lightning.send_to_route_generator(invoice, route)] (a static method). *)
Definition send_to_route_generator (invoice : InvoiceObject) (route : value) : Generator :=
  let request :=
    message "SendToRouteRequest" [("payment_hash", r_hash invoice); ("route", route)] in
  Yield request
    (Do (time_sleep 5)   (* Magic sleep *)
       Stop).

(** ** Vocabulary of the statements *)

(** The condition under which the accessor answers from its cache: a stub
    exists and the status-change flag is [False]. *)
Definition cached (self : Lightning) : bool :=
  is_not_None (_lightning_stub self) && is_False (connection_status_change self).

(** The client as a rebuild leaves it. *)
Definition rebuilt (self : Lightning) (ch : Channel) : Lightning :=
  mk_Lightning (Some (mk_stub ch)) (_version self) (Some ch) (connection_status self)
    (match connection_status self with None => true | Some _ => false end)
    (grpc_address self).

(** The three requests a rebuild makes of the runtime, in order. *)
Definition rebuild_events (self : Lightning) (ch : Channel) : list Event :=
  [secure_channel ch (grpc_address self); subscribe ch; stub_created ch].

(** The world as the invoker's recovery leaves it before the second attempt:
    the flag is set and the channel, if there is one, has been closed. *)
Definition recovered (w : World) : World :=
  mk_World (set_connection_status_change true (client w)) (now w)
    (runtime w ++ match channel (client w) with
                  | Some ch => [channel_closed ch]
                  | None => []
                  end).

(** The error classification of the invoker: caught by the [except] clause
    and accepted by [can_retry]. *)
Definition unavailable (e : exn) : bool := is_Rendezvous e && can_retry e.

(** *** Concrete worlds *)

(** The address of a local node. *)
Definition localhost : string := "localhost:10009".

(** A freshly constructed client at time [1000]. *)
Definition fresh_world : World := boot (Lightning__init__ localhost) 1000.

(** A client that built channel [0], saw it become [READY], used it, and has
    now been told that the channel failed. *)
Definition notified_world : World :=
  notify TRANSIENT_FAILURE
    (mk_World (mk_Lightning (Some (mk_stub 0)) None (Some 0) (Some READY) false localhost)
       1000 (rebuild_events (Lightning__init__ localhost) 0)).

(** A client with a ready connection on channel [0] and nothing pending. *)
Definition ready_world : World :=
  mk_World (mk_Lightning (Some (mk_stub 0)) None (Some 0) (Some READY) false localhost)
    1000 (rebuild_events (Lightning__init__ localhost) 0).

(** Three remote nodes.  [flaky] is unreachable for the first call ever made
    and answers afterwards; [down] is unreachable for every call, and says
    which call it refused; [rejecting] refuses every request as invalid. *)
Definition attempt_label (log : list Event) : string :=
  match calls log with
  | 0 => "first call"
  | 1 => "second call"
  | _ => "later call"
  end.

Definition flaky (log : list Event) (ch : Channel) (method : string) (request : value)
  : result value :=
  match calls log with
  | 0 => Raise (mk_exn _Rendezvous (Some UNAVAILABLE) "failed to connect to all addresses")
  | _ => Return (message (method ++ "Response") [])
  end.

Definition down (log : list Event) (ch : Channel) (method : string) (request : value)
  : result value :=
  Raise (mk_exn _Rendezvous (Some UNAVAILABLE) (attempt_label log)).

Definition rejecting (log : list Event) (ch : Channel) (method : string) (request : value)
  : result value :=
  Raise (mk_exn _Rendezvous (Some INVALID_ARGUMENT) (attempt_label log)).

(** The value of field [name] of a protobuf message, when it was given. *)
Definition field (name : string) (m : value) : option value :=
  match m with
  | VMsg _ fields =>
      match find (fun p => String.eqb (fst p) name) fields with
      | Some (_, v) => Some v
      | None => None
      end
  | _ => None
  end.

(** The world after a pause of [seconds]. *)
Definition after_sleep (seconds : Z) (w : World) : World :=
  mk_World (client w) (now w + seconds)%Z (runtime w ++ [slept seconds]).

(** The same world at another time of day. *)
Definition at_time (t : Z) (w : World) : World := mk_World (client w) t (runtime w).

(** ** More of Lightning (lightning.py) *)

(** *** Strings *)

(** [s.split(sep)] for a separator of one character: the pieces between the
    occurrences of [sep], empty pieces included; never an empty list. *)
Fixpoint str_split (sep : Ascii.ascii) (s : string) : list string :=
  match s with
  | EmptyString => [""]
  | String c rest =>
      if Ascii.eqb c sep then "" :: str_split sep rest
      else match str_split sep rest with
           | piece :: pieces => String c piece :: pieces
           | [] => [String c ""]
           end
  end.

(** [sep.join(pieces)]. *)
Fixpoint str_join (sep : Ascii.ascii) (pieces : list string) : string :=
  match pieces with
  | [] => ""
  | [piece] => piece
  | piece :: rest => piece ++ String sep (str_join sep rest)
  end.

(** [s.count(sep)]. *)
Fixpoint str_count (sep : Ascii.ascii) (s : string) : nat :=
  match s with
  | EmptyString => 0
  | String c rest => (if Ascii.eqb c sep then 1 else 0) + str_count sep rest
  end.

(** The error of [a, b = pieces] when [pieces] does not hold two values. *)
Definition unpack_error (pieces : list string) : exn :=
  mk_exn ValueError None
    (match pieces with
     | [] => "not enough values to unpack (expected 2, got 0)"
     | [_] => "not enough values to unpack (expected 2, got 1)"
     | _ => "too many values to unpack (expected 2)"
     end).

(** [a, b = pieces]. *)
Definition unpack2 (pieces : list string) : M (string * string) :=
  match pieces with
  | [a; b] => ret (a, b)
  | _ => raise (unpack_error pieces)
  end.

(** *** Keyword dictionaries *)

(** [kw[name]]: the value under [name], [KeyError] when there is none. *)
Definition kw_get (name : string) (kw : kwargs) : M value :=
  match find (fun p => String.eqb (fst p) name) kw with
  | Some (_, v) => ret v
  | None => raise (mk_exn (OtherError "KeyError") None name)
  end.

(** *** The version property *)

Definition set__version (v : option string) (self : Lightning) : Lightning :=
  mk_Lightning (_lightning_stub self) v (channel self) (connection_status self)
               (connection_status_change self) (grpc_address self).

(** Truth value of [self._version]: [None] and the empty string are false. *)
Definition truthy (v : option string) : bool :=
  match v with
  | Some s => negb (String.eqb s "")
  | None => false
  end.

(** [response.name] for a string field of a response message: the value
    given, the empty string when the field is unset (the protobuf default).
    Anything that is not such a message has no string there to split. *)
Definition str_attribute (name : string) (response : value) : M string :=
  match response with
  | VMsg _ _ =>
      match field name response with
      | Some (VStr s) => ret s
      | None => ret ""
      | Some _ => raise (mk_exn AttributeError None "split")
      end
  | _ => raise (mk_exn AttributeError None name)
  end.

Section Catalogue.

Variable lnd : list Event -> Channel -> string -> value -> result value.

(** The remote node for a call made with [timeout=...]: the deadline is
    handed to the runtime, whose answer may depend on it. *)
Variable lnd_within : value -> list Event -> Channel -> string -> value -> result value.

(** [BaseClient.channel_point_generator] and [BaseClient.lightning_address],
    helpers of base_client.py: any Python callables of two strings. *)
Variable channel_point_generator : string -> string -> M value.
Variable lightning_address : string -> string -> M value.

(** Lines 52-53 of lightning.py: ask the node, keep the first word. *)
Definition version_fetch : M string :=
  response <- get_info lnd ;;
  v <- str_attribute "version" response ;;
  let first := hd "" (str_split " "%char v) in
  update_self (set__version (Some first)) ;;
  ret first.

(** The getter of [Lightning.version]. *)
Definition version : M string :=
  self <- get_self ;;
  if truthy (_version self) then ret (or_default (_version self) "")
  else version_fetch.

(** The setter of [Lightning.version]. *)
Definition version_setter (v : option string) : M unit :=
  update_self (set__version v).

(** [stub.Method(request, timeout=timeout)]. *)
Definition stub_call_within (stub : LightningStub) (method : string) (request timeout : value)
  : M value :=
  fun w =>
    let ch := stub_channel stub in
    (lnd_within timeout (runtime w) ch method request,
     mk_World (client w) (now w) (runtime w ++ [rpc ch method request])).

(** [Lightning.connect_peer]; [perm] defaults to [0], [timeout] to [None]. *)
Definition connect_peer (addr : value) (perm timeout : option value) : M value :=
  let perm := or_default perm (VInt 0) in
  let timeout := or_default timeout VNone in
  let request := message "ConnectPeerRequest" [("addr", addr); ("perm", perm)] in
  stub <- lightning_stub ;;
  response <- stub_call_within stub "ConnectPeer" request timeout ;;
  ret response.

(** [Lightning.connect]. *)
Definition connect (address : string) (perm timeout : option value) : M value :=
  let perm := or_default perm (VInt 0) in
  let timeout := or_default timeout VNone in
  parts <- unpack2 (str_split "@"%char address) ;;
  let (pubkey, host) := parts in
  _address <- lightning_address pubkey host ;;
  response <- connect_peer _address (Some perm) (Some timeout) ;;
  ret response.

(** [Lightning.abandon_channel]. *)
Definition abandon_channel (channel_point : string) : M value :=
  parts <- unpack2 (str_split ":"%char channel_point) ;;
  let (funding_txid, output_index) := parts in
  _channel_point <- channel_point_generator funding_txid output_index ;;
  let request := message "AbandonChannelRequest" [("channel_point", _channel_point)] in
  unary_rpc lnd "AbandonChannel" request.

(** [Lightning.send_payment_sync]. *)
Definition send_payment_sync (kw : kwargs) : M value :=
  (* Use payment request as first choice *)
  if kw_mem "payment_request" kw then
    payment_request <- kw_get "payment_request" kw ;;
    let params := [("payment_request", payment_request)] in
    if kw_mem "amt" kw then
      amt <- kw_get "amt" kw ;;
      let params := params ++ [("amt", amt)] in
      let request := message "SendRequest" params in
      unary_rpc lnd "SendPaymentSync" request
    else
      let request := message "SendRequest" params in
      unary_rpc lnd "SendPaymentSync" request
  else
    let request := message "SendRequest" kw in
    unary_rpc lnd "SendPaymentSync" request.

(** [Lightning.pay_invoice]. *)
Definition pay_invoice (payment_request : string) : M value :=
  response <- send_payment_sync [("payment_request", VStr payment_request)] ;;
  ret response.

End Catalogue.

(** ** Runs of a client *)

(** What a program does with a client, one step at a time: read the stub, run
    a unary operation, or run it through the retrying invoker. *)
Inductive step : Type :=
| Access
| Call (method : string) (request : value)
| Retried (method : string) (request : value).

(** The world after one step against the node [lnd], whatever the step
    returned or raised. *)
Definition do_step (lnd : list Event -> Channel -> string -> value -> result value)
    (s : step) (w : World) : World :=
  match s with
  | Access => snd (lightning_stub w)
  | Call method request => snd (unary_rpc lnd method request w)
  | Retried method request =>
      snd (retry (Client lnd) (fun _ => unary_rpc lnd method request) ([], []) w)
  end.

Definition run (lnd : list Event -> Channel -> string -> value -> result value)
    (steps : list step) (w : World) : World :=
  fold_left (fun w' s => do_step lnd s w') steps w.

(** A step that does not go through the invoker. *)
Definition plain (s : step) : bool :=
  match s with Retried _ _ => false | _ => true end.

(** Number of channels closed so far. *)
Definition closes (log : list Event) : nat := count is_channel_closed log.

(** Every [close] in [log] is of a channel numbered below [n]. *)
Definition closes_below (n : nat) (log : list Event) : bool :=
  forallb (fun e => match e with channel_closed c => Nat.ltb c n | _ => true end) log.

(** The shape the connection keeps: the channel held was made by the
    runtime; it is closed only while the flag is raised; the stub held is
    bound to the channel held; only channels that were made are closed. *)
Definition consistent (w : World) : bool :=
  let self := client w in
  let log := runtime w in
  match channel self with
  | Some ch => Nat.ltb ch (builds log)
               && (negb (closed ch log) || connection_status_change self)
  | None => true
  end
  && match _lightning_stub self with
     | Some stub =>
         match channel self with
         | Some ch => Nat.eqb ch (stub_channel stub)
         | None => false
         end
     | None => true
     end
  && closes_below (builds log) log.

(** Every call in [new] goes out on a channel that no earlier event, of
    [past] or of [new], has closed. *)
Fixpoint calls_on_open (past new : list Event) : bool :=
  match new with
  | [] => true
  | e :: rest =>
      match e with
      | rpc ch _ _ => negb (closed ch past)
      | _ => true
      end && calls_on_open (past ++ [e]) rest
  end.

(** ** Proxies reached from the persistent client *)

(** The proxies a program can hold: the one [get_persistent_client] returns
    and every wrapper obtained from one of them by attribute access. *)
Inductive reachable (client : Target) : ObjectProxy -> Prop :=
| reach_root : reachable client (get_persistent_client client)
| reach_attr (p q : ObjectProxy) (name : string) (w w' : World) :
    reachable client p ->
    __getattr__ p name w = (Return (Wrapped q), w') ->
    reachable client q.

(** A node that answers every call with a response carrying [fields]. *)
Definition answering (fields : list (string * value))
    (log : list Event) (ch : Channel) (method : string) (request : value) : result value :=
  Return (message (method ++ "Response") fields).

(** [BaseClient.lightning_address] and [BaseClient.channel_point_generator]
    as plain message constructors, for the concrete runs. *)
Definition plain_lightning_address (pubkey host : string) : M value :=
  ret (message "LightningAddress" [("pubkey", VStr pubkey); ("host", VStr host)]).

Definition plain_channel_point (funding_txid output_index : string) : M value :=
  ret (message "ChannelPoint"
         [("funding_txid_str", VStr funding_txid); ("output_index", VStr output_index)]).

(** A caller's operation that runs two operations of the catalogue in a
    row, so that one attempt reads the stub twice (as [close_all_channels]
    does with [list_channels] and [close_channel]). *)
Definition both_balances
    (lnd : list Event -> Channel -> string -> value -> result value) (args : Args)
  : M value :=
  wallet_balance lnd ;; channel_balance lnd.

(** ** Runs with connectivity notifications *)








(** ** Properties *)

(** *** The log *)

Lemma count_app (p : Event -> bool) (l l' : list Event) :
  count p (l ++ l') = count p l + count p l'.
Proof.
  unfold count. now rewrite filter_app, length_app.
Qed.

Lemma builds_app (l l' : list Event) : builds (l ++ l') = builds l + builds l'.
Proof. apply count_app. Qed.

Lemma stubs_app (l l' : list Event) : stubs (l ++ l') = stubs l + stubs l'.
Proof. apply count_app. Qed.

Lemma calls_app (l l' : list Event) : calls (l ++ l') = calls l + calls l'.
Proof. apply count_app. Qed.

(** *** The stub accessor *)

Lemma lightning_stub_fresh_run (w : World) :
  let ch := builds (runtime w) in
  lightning_stub_fresh w =
    (Return (mk_stub ch),
     mk_World (rebuilt (client w) ch) (now w)
              (runtime w ++ rebuild_events (client w) ch)).
Proof.
  destruct w as [self t log]. cbn -[builds].
  unfold lightning_stub_fresh, bind, get_self, grpc_secure_channel, update_self,
    channel_subscribe, LightningStub_new, emit, bind, ret, rebuilt, rebuild_events.
  cbn -[builds].
  destruct (connection_status self) eqn:Hs; cbn -[builds];
    rewrite <- !app_assoc; cbn -[builds]; unfold set_connection_status_change,
    set__lightning_stub, set_channel; cbn; rewrite ?Hs; reflexivity.
Qed.

Lemma lightning_stub_hit (w : World) (stub : LightningStub) :
  _lightning_stub (client w) = Some stub ->
  connection_status_change (client w) = false ->
  lightning_stub w = (Return stub, w).
Proof.
  intros Hstub Hflag. unfold lightning_stub, bind, get_self.
  rewrite Hstub, Hflag. reflexivity.
Qed.

Lemma lightning_stub_miss (w : World) :
  cached (client w) = false ->
  lightning_stub w = lightning_stub_fresh w.
Proof.
  unfold cached, lightning_stub, bind, get_self. intros H.
  destruct (_lightning_stub (client w)); [|reflexivity].
  cbn in H. rewrite H. reflexivity.
Qed.

Lemma cached_inv (self : Lightning) :
  cached self = true ->
  exists stub, _lightning_stub self = Some stub /\ connection_status_change self = false.
Proof.
  unfold cached, is_False. destruct (_lightning_stub self) as [stub|]; cbn; [|discriminate].
  intros H. exists stub. split; [reflexivity|]. now destruct (connection_status_change self).
Qed.

Lemma rebuild_events_builds (self : Lightning) (ch : Channel) :
  builds (rebuild_events self ch) = 1 /\ stubs (rebuild_events self ch) = 1
  /\ calls (rebuild_events self ch) = 0.
Proof. repeat split. Qed.

Lemma app_neq_self {X} (l l' : list X) : l' <> [] -> l ++ l' <> l.
Proof.
  intros Hne Heq. apply Hne.
  apply (f_equal (@List.length X)) in Heq. rewrite length_app in Heq.
  destruct l'; [reflexivity | cbn in Heq; lia].
Qed.

(** C1.  After any sequence of connectivity notifications, one access to
    [lightning_stub] answers from the cache, leaving the world untouched (no
    channel, no stub is constructed), when a stub exists and the
    status-change flag is [False]; in every other case it constructs exactly
    one channel and exactly one stub, in that order, and returns the new
    stub.  The world is left untouched only in the cached case. *)
Theorem lightning_stub_rebuilds_iff_dirty :
  forall (states : list ChannelConnectivity) (w0 : World),
    let w := notify_all states w0 in
    let w' := snd (lightning_stub w) in
    (if cached (client w)
     then exists stub, _lightning_stub (client w) = Some stub
                       /\ lightning_stub w = (Return stub, w)
     else let ch := builds (runtime w) in
          fst (lightning_stub w) = Return (mk_stub ch)
          /\ _lightning_stub (client w') = Some (mk_stub ch)
          /\ channel (client w') = Some ch
          /\ runtime w' = runtime w ++ rebuild_events (client w) ch)
    /\ builds (runtime w') = builds (runtime w) + (if cached (client w) then 0 else 1)
    /\ stubs (runtime w') = stubs (runtime w) + (if cached (client w) then 0 else 1)
    /\ (w' = w <-> cached (client w) = true).
Proof.
  intros states w0 w w'. subst w'. generalize w. clear. intros w.
  destruct (cached (client w)) eqn:Hc.
  - destruct (cached_inv _ Hc) as (stub & Hstub & Hflag).
    rewrite (lightning_stub_hit w stub Hstub Hflag). cbn [fst snd].
    repeat split; try lia. now exists stub.
  - rewrite (lightning_stub_miss w Hc), lightning_stub_fresh_run. cbn [fst snd runtime client].
    rewrite builds_app, stubs_app.
    destruct (rebuild_events_builds (client w) (builds (runtime w))) as (-> & -> & _).
    repeat split; try reflexivity; try discriminate.
    intros Heq. apply (f_equal runtime) in Heq. cbn [runtime] in Heq.
    exfalso. apply (app_neq_self (runtime w) (rebuild_events (client w) (builds (runtime w)))).
    + unfold rebuild_events. discriminate.
    + exact Heq.
Qed.

(** C5.  When the accessor rebuilds, the flag it leaves depends on the
    connectivity state seen so far: with [connection_status] still [None] the
    flag is [True] and the very next access rebuilds again; otherwise the
    flag is [False] and the very next access returns the stub just built.
    A freshly constructed client has no stub, so whatever value the base
    initialiser gives the flag, its first access, and its first operation,
    construct exactly one channel. *)
Theorem lightning_stub_flag_after_rebuild :
  forall (w : World),
    cached (client w) = false ->
    let w' := snd (lightning_stub w) in
    match connection_status (client w) with
    | None =>
        connection_status_change (client w') = true
        /\ cached (client w') = false
        /\ builds (runtime (snd (lightning_stub w'))) = builds (runtime w') + 1
    | Some _ =>
        connection_status_change (client w') = false
        /\ lightning_stub w' = (fst (lightning_stub w), w')
    end
    /\ builds (runtime w') = builds (runtime w) + 1
    /\ forall (address : string) (flag : bool) (t : Z)
         (lnd : list Event -> Channel -> string -> value -> result value)
         (method : string) (request : value),
         let fresh :=
           boot (set_connection_status_change flag (Lightning__init__ address)) t in
         cached (client fresh) = false
         /\ builds (runtime (snd (lightning_stub fresh))) = 1
         /\ builds (runtime (snd (unary_rpc lnd method request fresh))) = 1.
Proof.
  intros w Hc w'. subst w'.
  rewrite (lightning_stub_miss w Hc), lightning_stub_fresh_run. cbn [fst snd].
  split; [|split].
  - destruct (connection_status (client w)) eqn:Hs.
    + split; [cbn; now rewrite Hs|].
      apply lightning_stub_hit; cbn; now rewrite ?Hs.
    + assert (Hc' : cached (rebuilt (client w) (builds (runtime w))) = false)
        by (unfold cached, rebuilt; cbn; now rewrite Hs).
      split; [cbn; now rewrite Hs|]. split; [exact Hc'|].
      rewrite lightning_stub_miss by exact Hc'.
      rewrite lightning_stub_fresh_run. cbn [snd runtime client].
      rewrite (builds_app (_ ++ _)). reflexivity.
  - cbn [runtime]. now rewrite builds_app.
  - intros address flag t lnd method request.
    split; [reflexivity|]. split; [reflexivity|].
    unfold unary_rpc, bind. rewrite lightning_stub_miss by reflexivity.
    rewrite lightning_stub_fresh_run. unfold stub_call. cbn -[builds].
    destruct (lnd _ _ _ _); reflexivity.
Qed.

(** The theorem at a client that has a stub and has just been notified. *)
Lemma lightning_stub_flag_after_rebuild_witness :
  cached (client notified_world) = false
  /\ connection_status_change (client (snd (lightning_stub notified_world))) = false
  /\ builds (runtime (snd (lightning_stub notified_world))) = 2.
Proof.
  split; [reflexivity|].
  pose proof (lightning_stub_flag_after_rebuild notified_world eq_refl) as H.
  cbv zeta in H. cbn [notified_world client connection_status] in H.
  destruct H as [[H1 _] [H2 _]]. split; [exact H1 | exact H2].
Defined.

(** *** Unary operations *)

Section Unary.

Variable lnd : list Event -> Channel -> string -> value -> result value.
Variables (method : string) (request : value).

Lemma lightning_stub_returns (w : World) :
  exists stub, fst (lightning_stub w) = Return stub.
Proof.
  destruct (cached (client w)) eqn:Hc.
  - destruct (cached_inv _ Hc) as (stub & Hstub & Hflag).
    exists stub. now rewrite (lightning_stub_hit w stub Hstub Hflag).
  - rewrite (lightning_stub_miss w Hc), lightning_stub_fresh_run. now eexists.
Qed.

(** One unary operation is one access to the stub followed by one call. *)
Lemma unary_rpc_world (w : World) :
  exists stub,
    fst (lightning_stub w) = Return stub
    /\ unary_rpc lnd method request w =
         (lnd (runtime (snd (lightning_stub w))) (stub_channel stub) method request,
          mk_World (client (snd (lightning_stub w))) (now (snd (lightning_stub w)))
            (runtime (snd (lightning_stub w)) ++ [rpc (stub_channel stub) method request])).
Proof.
  destruct (lightning_stub_returns w) as [stub Hstub]. exists stub. split; [exact Hstub|].
  unfold unary_rpc, bind. destruct (lightning_stub w) as [r w1]. cbn in Hstub. subst r.
  unfold stub_call, ret. cbn [fst snd].
  destruct (lnd (runtime w1) (stub_channel stub) method request); reflexivity.
Qed.

Lemma unary_rpc_calls (w : World) :
  calls (runtime (snd (unary_rpc lnd method request w))) = calls (runtime w) + 1.
Proof.
  destruct (unary_rpc_world w) as (stub & _ & ->). cbn [snd runtime].
  rewrite calls_app. cbn [calls count filter is_rpc List.length].
  destruct (cached (client w)) eqn:Hc.
  - destruct (cached_inv _ Hc) as (s & Hs & Hflag).
    now rewrite (lightning_stub_hit w s Hs Hflag).
  - rewrite (lightning_stub_miss w Hc), lightning_stub_fresh_run. cbn [snd runtime].
    rewrite calls_app. cbn. lia.
Qed.

Lemma unary_rpc_builds (w : World) :
  builds (runtime (snd (unary_rpc lnd method request w)))
  = builds (runtime w) + (if cached (client w) then 0 else 1).
Proof.
  destruct (unary_rpc_world w) as (stub & _ & ->). cbn [snd runtime].
  rewrite builds_app. cbn [builds count filter is_secure_channel List.length].
  destruct (cached (client w)) eqn:Hc.
  - destruct (cached_inv _ Hc) as (s & Hs & Hflag).
    rewrite (lightning_stub_hit w s Hs Hflag). cbn. lia.
  - rewrite (lightning_stub_miss w Hc), lightning_stub_fresh_run. cbn [snd runtime].
    rewrite builds_app. cbn. lia.
Qed.

Lemma unary_rpc_cached (w : World) :
  cached (client w) = true ->
  client (snd (unary_rpc lnd method request w)) = client w
  /\ count is_channel_closed (runtime (snd (unary_rpc lnd method request w)))
     = count is_channel_closed (runtime w).
Proof.
  intros Hc. destruct (unary_rpc_world w) as (stub & _ & ->). cbn [snd runtime client].
  destruct (cached_inv _ Hc) as (s & Hs & Hflag).
  rewrite (lightning_stub_hit w s Hs Hflag). cbn [snd].
  split; [reflexivity|]. rewrite count_app. cbn. lia.
Qed.

End Unary.

(** *** The retrying invoker *)

Lemma recovered_not_cached (w : World) : cached (client (recovered w)) = false.
Proof. unfold cached, recovered. cbn. apply andb_false_r. Qed.

Lemma recovered_builds (w : World) : builds (runtime (recovered w)) = builds (runtime w).
Proof.
  unfold recovered. cbn [runtime]. rewrite builds_app.
  destruct (channel (client w)); cbn; lia.
Qed.

Lemma recovered_calls (w : World) : calls (runtime (recovered w)) = calls (runtime w).
Proof.
  unfold recovered. cbn [runtime]. rewrite calls_app.
  destruct (channel (client w)); cbn; lia.
Qed.

(** The invoker, case by case on its first attempt. *)
Lemma retry_run {A} (target : Target) (op : Args -> M A) (args : Args) (w : World) :
  retry target op args w =
    match op args w with
    | (Return a, w1) => (Return a, w1)
    | (Raise e, w1) => if unavailable e then op args (recovered w1) else (Raise e, w1)
    end.
Proof.
  unfold retry, try_except. destruct (op args w) as [[a|e] w1]; [reflexivity|].
  unfold unavailable. destruct (is_Rendezvous e); [|reflexivity].
  destruct (can_retry e); [|reflexivity]. cbn [andb negb].
  unfold bind, update_self, get_self, recovered, channel_close, emit, ret. cbn.
  destruct (channel (client w1)); [reflexivity|]. now rewrite app_nil_r.
Qed.

(** C2.  When the first attempt of an operation run through [retry] raises
    an error classified as UNAVAILABLE, the invoker sets
    [connection_status_change], closes the channel when there is one, and
    runs the operation once more from that world; the outcome of [retry] is
    the outcome of this second attempt, so a successful second attempt is
    what the caller receives.  The invoker builds nothing itself: the rebuild
    is the accessor's, inside the second attempt.  For an operation that
    reads the stub once per attempt (one access, one call, as the unary
    operations of the catalogue) the second attempt constructs exactly one
    channel, the invocation as a whole constructs one channel from a clean
    connection and two from a dirty one, and the node is called exactly
    twice. *)
Theorem retry_recovers_from_unavailable :
  forall (target : Target) (op : Args -> M value) (args : Args)
         (w w1 : World) (e : exn),
    op args w = (Raise e, w1) ->
    unavailable e = true ->
    let w2 := recovered w1 in
    connection_status_change (client w2) = true
    /\ runtime w2 = runtime w1 ++ match channel (client w1) with
                                  | Some ch => [channel_closed ch]
                                  | None => []
                                  end
    /\ retry target op args w = op args w2
    /\ (forall (a : value) (w3 : World),
          op args w2 = (Return a, w3) -> retry target op args w = (Return a, w3))
    /\ (forall lnd method request,
          (forall w', op args w' = unary_rpc lnd method request w') ->
          let w3 := snd (retry target op args w) in
          builds (runtime w3) = builds (runtime w1) + 1
          /\ builds (runtime w3) = builds (runtime w) + (if cached (client w) then 1 else 2)
          /\ calls (runtime w3) = calls (runtime w) + 2).
Proof.
  intros target op args w w1 e Hfirst Hun w2.
  assert (Hretry : retry target op args w = op args w2)
    by (rewrite retry_run, Hfirst, Hun; reflexivity).
  split; [reflexivity|]. split; [reflexivity|]. split; [exact Hretry|]. split.
  - intros a w3 Hsecond. now rewrite Hretry.
  - intros lnd method request Hop w3. subst w3. rewrite Hretry, Hop.
    assert (Hw1 : w1 = snd (unary_rpc lnd method request w))
      by (rewrite <- Hop, Hfirst; reflexivity).
    rewrite unary_rpc_builds, unary_rpc_calls. subst w2.
    rewrite recovered_not_cached, recovered_builds, recovered_calls.
    split; [reflexivity|]. rewrite Hw1, unary_rpc_builds, unary_rpc_calls.
    destruct (cached (client w)); lia.
Qed.

(** The theorem at [wallet_balance] on a ready connection to a node that is
    unreachable for the first call only. *)
Lemma retry_recovers_from_unavailable_witness :
  retry (Client flaky) (fun _ => wallet_balance flaky) ([], []) ready_world
  = (Return (message "WalletBalanceResponse" []),
     mk_World (mk_Lightning (Some (mk_stub 1)) None (Some 1) (Some READY) false localhost)
       1000
       (rebuild_events (Lightning__init__ localhost) 0
          ++ [rpc 0 "WalletBalance" (message "WalletBalanceRequest" []);
              channel_closed 0]
          ++ rebuild_events (Lightning__init__ localhost) 1
          ++ [rpc 1 "WalletBalance" (message "WalletBalanceRequest" [])])).
Proof.
  refine (proj1 (proj2 (proj2 (proj2
    (retry_recovers_from_unavailable (Client flaky)
       (fun _ => wallet_balance flaky) ([], []) ready_world
       (snd (wallet_balance flaky ready_world))
       (mk_exn _Rendezvous (Some UNAVAILABLE) "failed to connect to all addresses")
       eq_refl eq_refl)))) _ _ eq_refl).
Defined.

(** An invocation that recovers does not always build exactly one channel.
    On a fresh client [wallet_balance] against a node unreachable for the
    first call fails, is retried and succeeds, and two channels have been
    built: one by the first attempt, one by the second.  An operation that
    reads the stub twice builds two channels in its second attempt alone,
    three in all. *)
Lemma retry_can_build_more_than_one_channel :
  (let op := fun _ : Args => wallet_balance flaky in
   let w1 := snd (op ([], []) fresh_world) in
   let w3 := snd (retry (Client flaky) op ([], []) fresh_world) in
   fst (op ([], []) fresh_world)
   = Raise (mk_exn _Rendezvous (Some UNAVAILABLE) "failed to connect to all addresses")
   /\ fst (op ([], []) (recovered w1)) = Return (message "WalletBalanceResponse" [])
   /\ fst (retry (Client flaky) op ([], []) fresh_world)
      = Return (message "WalletBalanceResponse" [])
   /\ builds (runtime w3) = builds (runtime fresh_world) + 2
   /\ builds (runtime w3) <> builds (runtime fresh_world) + 1)
  /\ (let op := both_balances flaky in
      let w1 := snd (op ([], []) fresh_world) in
      let w3 := snd (retry (Client flaky) op ([], []) fresh_world) in
      fst (op ([], []) fresh_world)
      = Raise (mk_exn _Rendezvous (Some UNAVAILABLE) "failed to connect to all addresses")
      /\ fst (retry (Client flaky) op ([], []) fresh_world)
         = Return (message "ChannelBalanceResponse" [])
      /\ builds (runtime w3) = builds (runtime w1) + 2
      /\ builds (runtime w3) <> builds (runtime w1) + 1
      /\ builds (runtime w3) = builds (runtime fresh_world) + 3).
Proof.
  split; cbv zeta; repeat split; try reflexivity; vm_compute; discriminate.
Qed.

(** C3.  When the first attempt raises an error classified as UNAVAILABLE
    and the second attempt raises too, [retry] raises the error of the second
    attempt and leaves the world as the second attempt left it: there is no
    third attempt.  For an operation of the catalogue the node is called
    exactly twice. *)
Theorem retry_at_most_once :
  forall (target : Target) (op : Args -> M value) (args : Args)
         (w w1 w3 : World) (e1 e2 : exn),
    op args w = (Raise e1, w1) ->
    unavailable e1 = true ->
    op args (recovered w1) = (Raise e2, w3) ->
    unavailable e2 = true ->
    retry target op args w = (Raise e2, w3)
    /\ (forall lnd method request,
          (forall w', op args w' = unary_rpc lnd method request w') ->
          calls (runtime w3) = calls (runtime w) + 2).
Proof.
  intros target op args w w1 w3 e1 e2 Hfirst Hun1 Hsecond _.
  split.
  - now rewrite retry_run, Hfirst, Hun1.
  - intros lnd method request Hop.
    assert (Hw3 : w3 = snd (unary_rpc lnd method request (recovered w1)))
      by (rewrite <- Hop, Hsecond; reflexivity).
    assert (Hw1 : w1 = snd (unary_rpc lnd method request w))
      by (rewrite <- Hop, Hfirst; reflexivity).
    rewrite Hw3, unary_rpc_calls, recovered_calls, Hw1, unary_rpc_calls. lia.
Qed.

(** The theorem at [wallet_balance] against a node that stays unreachable:
    the error raised is the one of the second call. *)
Lemma retry_at_most_once_witness :
  retry (Client down) (fun _ => wallet_balance down) ([], []) ready_world
  = (Raise (mk_exn _Rendezvous (Some UNAVAILABLE) "second call"),
     snd (wallet_balance down (recovered (snd (wallet_balance down ready_world)))))
  /\ calls (runtime (snd (wallet_balance down
                            (recovered (snd (wallet_balance down ready_world)))))) = 2.
Proof.
  pose proof (retry_at_most_once (Client down) (fun _ => wallet_balance down)
                ([], []) ready_world
                (snd (wallet_balance down ready_world))
                (snd (wallet_balance down (recovered (snd (wallet_balance down ready_world)))))
                (mk_exn _Rendezvous (Some UNAVAILABLE) "first call")
                (mk_exn _Rendezvous (Some UNAVAILABLE) "second call")
                eq_refl eq_refl eq_refl eq_refl) as [H1 H2].
  split; [exact H1|].
  exact (H2 down "WalletBalance" (message "WalletBalanceRequest" []) (fun _ => eq_refl)).
Defined.

(** C4.  When the first attempt raises an error that is not classified as
    UNAVAILABLE, [retry] raises that very error and adds nothing of its own:
    the world is the one the single attempt left, so the flag is not set and
    no channel is closed.  For an operation of the catalogue the node is
    called exactly once, and on a connection that was clean the client and
    the number of channels built and closed are unchanged. *)
Theorem retry_propagates_other_errors :
  forall (target : Target) (op : Args -> M value) (args : Args)
         (w w1 : World) (e : exn),
    op args w = (Raise e, w1) ->
    unavailable e = false ->
    retry target op args w = (Raise e, w1)
    /\ (forall lnd method request,
          (forall w', op args w' = unary_rpc lnd method request w') ->
          calls (runtime w1) = calls (runtime w) + 1
          /\ builds (runtime w1) = builds (runtime w) + (if cached (client w) then 0 else 1)
          /\ (cached (client w) = true ->
              client w1 = client w
              /\ count is_channel_closed (runtime w1)
                 = count is_channel_closed (runtime w))).
Proof.
  intros target op args w w1 e Hfirst Hun. split.
  - now rewrite retry_run, Hfirst, Hun.
  - intros lnd method request Hop.
    assert (Hw1 : w1 = snd (unary_rpc lnd method request w))
      by (rewrite <- Hop, Hfirst; reflexivity).
    rewrite Hw1. split; [apply unary_rpc_calls|]. split; [apply unary_rpc_builds|].
    apply unary_rpc_cached.
Qed.

(** The theorem at [wallet_balance] on a ready connection to a node that
    rejects the request. *)
Lemma retry_propagates_other_errors_witness :
  retry (Client rejecting) (fun _ => wallet_balance rejecting) ([], []) ready_world
  = (Raise (mk_exn _Rendezvous (Some INVALID_ARGUMENT) "first call"),
     mk_World (client ready_world) 1000
       (runtime ready_world ++ [rpc 0 "WalletBalance" (message "WalletBalanceRequest" [])])).
Proof.
  exact (proj1 (retry_propagates_other_errors (Client rejecting)
                  (fun _ => wallet_balance rejecting) ([], []) ready_world _ _
                  eq_refl eq_refl)).
Defined.

(** *** Channels left open by the accessor *)

(** The accessor never asks the runtime to close a channel. *)
Lemma lightning_stub_never_closes (w : World) :
  count is_channel_closed (runtime (snd (lightning_stub w)))
  = count is_channel_closed (runtime w).
Proof.
  destruct (cached (client w)) eqn:Hc.
  - destruct (cached_inv _ Hc) as (stub & Hstub & Hflag).
    now rewrite (lightning_stub_hit w stub Hstub Hflag).
  - rewrite (lightning_stub_miss w Hc), lightning_stub_fresh_run. cbn [snd runtime].
    rewrite count_app. cbn. lia.
Qed.

(** C6.  The accessor at the inputs where the claim fails.  A fresh client
    that is accessed twice before any connectivity event builds channel [0]
    and then channel [1]; a client told that its channel [0] failed builds
    channel [1] on the next access.  In both runs the log holds the two
    constructions and no [close] of channel [0]: the rebuild replaces
    [self.channel] without closing the channel it held. *)
Theorem lightning_stub_rebuild_leaves_old_channel_open :
  (let w1 := snd (lightning_stub fresh_world) in
   let w2 := snd (lightning_stub w1) in
   channel (client w1) = Some 0
   /\ channel (client w2) = Some 1
   /\ runtime w2 = rebuild_events (client fresh_world) 0
                     ++ rebuild_events (client fresh_world) 1
   /\ closed 0 (runtime w2) = false)
  /\ (let w2 := snd (lightning_stub notified_world) in
      channel (client notified_world) = Some 0
      /\ channel (client w2) = Some 1
      /\ runtime w2 = rebuild_events (client fresh_world) 0
                        ++ rebuild_events (client fresh_world) 1
      /\ closed 0 (runtime w2) = false).
Proof. repeat split. Qed.

(** *** The proxy *)

(** C7.  Attribute interception by the proxy of [get_persistent_client], for
    every attribute name.  When the client's attribute is not callable the
    proxy returns that value; when it is callable the proxy returns a wrapper
    whose call, with any arguments, is [retry] applied to the client, that
    callable and those arguments, hence one attempt and, only after an error
    classified as UNAVAILABLE, one more from the recovered world.  When the
    lookup on the client raises, the proxy raises the same error. *)
Theorem proxy_wraps_every_operation :
  forall (client : Target) (name : string) (w : World),
    match getattribute client name w with
    | (Return (Data v), w') =>
        __getattr__ (get_persistent_client client) name w = (Return (Plain v), w')
    | (Return (Callable f), w') =>
        exists p : ObjectProxy,
          __getattr__ (get_persistent_client client) name w = (Return (Wrapped p), w')
          /\ forall (args : Args) (w2 : World),
               __call__ p args w2 = retry client f args w2
               /\ __call__ p args w2 =
                    match f args w2 with
                    | (Return a, w3) => (Return a, w3)
                    | (Raise e, w3) =>
                        if unavailable e then f args (recovered w3) else (Raise e, w3)
                    end
    | (Raise e, w') =>
        __getattr__ (get_persistent_client client) name w = (Raise e, w')
    end.
Proof.
  intros client name w. unfold __getattr__, bind. cbn [get_persistent_client _target].
  destruct (getattribute client name w) as [[[v|f]|e] w']; try reflexivity.
  eexists. split; [reflexivity|]. intros args w2.
  unfold __call__. cbn [_invoker _target _callable].
  split; [reflexivity | apply retry_run].
Qed.

(** *** Request generators *)

(** C8.  Each of the two request generators, for every input: the first
    [next] yields the one request and does nothing else; the second [next]
    sleeps for 5 seconds and then ends the generator ([StopIteration]); a
    consumer that iterates to the end receives exactly that one request, the
    only effect being the one pause of 5 seconds. *)
Theorem request_generators_yield_once_then_sleep :
  forall (kw : kwargs) (invoice : InvoiceObject) (route : value) (w : World),
    (let g := send_request_generator kw in
     let request := message "SendRequest" kw in
     exists g1 : Generator,
       next g w = (Return (Some request, g1), w)
       /\ next g1 w = (Return (None, Stop), after_sleep 5 w)
       /\ exhaust g w = (Return [request], after_sleep 5 w))
    /\ (let g := send_to_route_generator invoice route in
        let request :=
          message "SendToRouteRequest" [("payment_hash", r_hash invoice); ("route", route)] in
        exists g1 : Generator,
          next g w = (Return (Some request, g1), w)
          /\ next g1 w = (Return (None, Stop), after_sleep 5 w)
          /\ exhaust g w = (Return [request], after_sleep 5 w)).
Proof.
  intros kw invoice route w. split; cbv zeta; eexists; repeat split.
Qed.

(** *** Operations of the catalogue *)

(** C9.  The [def] statement of [add_invoice], run when the module is
    imported, reads the clock once and stores the reading as the default of
    [creation_date].  Every later call that omits [creation_date] sends an
    invoice whose [creation_date] is that stored reading, whatever the time
    of the call: the call is the same unary operation at every clock value,
    and it does not read the clock. *)
Theorem add_invoice_default_creation_date_is_import_time :
  forall (lnd : list Event -> Channel -> string -> value -> result value)
         (w_import w_call : World)
         (memo : option string) (val expiry : option Z) (kw : kwargs),
    let d := mk_defaults "" 0 3600 (now w_import) in
    let request :=
      Invoice (or_default memo "") (or_default val 0%Z) (or_default expiry 3600%Z)
              (now w_import) kw in
    def_add_invoice w_import = (Return d, w_import)
    /\ field "creation_date" request = Some (VInt (now w_import))
    /\ (forall t : Z,
          add_invoice lnd d memo val expiry None kw (at_time t w_call)
          = unary_rpc lnd "AddInvoice" request (at_time t w_call))
    /\ (forall t : Z,
        exists ch : Channel,
          runtime (snd (add_invoice lnd d memo val expiry None kw (at_time t w_call)))
          = runtime (snd (lightning_stub w_call)) ++ [rpc ch "AddInvoice" request]).
Proof.
  intros lnd w_import w_call memo val expiry kw d request.
  split; [reflexivity|]. split; [reflexivity|]. split; [reflexivity|].
  intros t. unfold add_invoice. cbn [memo_default value_default expiry_default
    creation_date_default or_default d]. fold request.
  destruct (unary_rpc_world lnd "AddInvoice" request (at_time t w_call)) as (stub & _ & ->).
  exists (stub_channel stub). cbn [snd runtime].
  assert (H : runtime (snd (lightning_stub (at_time t w_call)))
              = runtime (snd (lightning_stub w_call))).
  { destruct (cached (client w_call)) eqn:Hc.
    - destruct (cached_inv _ Hc) as (s & Hs & Hflag).
      rewrite (lightning_stub_hit w_call s Hs Hflag).
      rewrite (lightning_stub_hit (at_time t w_call) s Hs Hflag). reflexivity.
    - rewrite (lightning_stub_miss w_call Hc), (lightning_stub_miss (at_time t w_call) Hc).
      rewrite !lightning_stub_fresh_run. reflexivity. }
  now rewrite H.
Qed.

(** C10.  For every address type other than ["p2wkh"] and ["np2wkh"],
    [new_address] leaves the world as it was (no stub access, no call) and its
    result is a [TypeError] object handed back as an ordinary return value. *)
Theorem new_address_returns_TypeError :
  forall (lnd : list Event -> Channel -> string -> value -> result value)
         (address_type : string) (w : World),
    address_type <> "p2wkh" ->
    address_type <> "np2wkh" ->
    new_address lnd address_type w = (Return (VExc (new_address_error address_type)), w)
    /\ exn_class (new_address_error address_type) = TypeError
    /\ calls (runtime (snd (new_address lnd address_type w))) = calls (runtime w).
Proof.
  intros lnd address_type w H1 H2. unfold new_address.
  apply String.eqb_neq in H1. apply String.eqb_neq in H2. rewrite H1, H2.
  repeat split.
Qed.

(** The theorem at the legacy address type ["p2pkh"]. *)
Lemma new_address_returns_TypeError_witness :
  new_address flaky "p2pkh" ready_world
  = (Return (VExc (mk_exn TypeError None
       "invalid address type p2pkh, supported address type are: p2wkh and np2wkh")),
     ready_world).
Proof.
  refine (proj1 (new_address_returns_TypeError flaky "p2pkh" ready_world _ _));
    discriminate.
Defined.

(** *** Splitting strings *)

Section Split.

Variable sep : ascii.

Lemma str_split_cons (s : string) :
  exists piece pieces, str_split sep s = piece :: pieces.
Proof.
  destruct s as [|c rest]; cbn [str_split]; [now eexists; eexists|].
  destruct (Ascii.eqb c sep); [now eexists; eexists|].
  destruct (str_split sep rest); now eexists; eexists.
Qed.

Lemma str_split_length (s : string) :
  List.length (str_split sep s) = S (str_count sep s).
Proof.
  induction s as [|c rest IH]; cbn [str_split str_count]; [reflexivity|].
  destruct (Ascii.eqb c sep); cbn [List.length]; [now rewrite IH|].
  destruct (str_split sep rest); cbn [List.length] in *; [discriminate | exact IH].
Qed.

Lemma str_join_cons (a b : string) (l : list string) :
  str_join sep (a :: b :: l) = (a ++ String sep (str_join sep (b :: l)))%string.
Proof. reflexivity. Qed.

Lemma str_join_split (s : string) : str_join sep (str_split sep s) = s.
Proof.
  induction s as [|c rest IH]; cbn [str_split]; [reflexivity|].
  destruct (str_split_cons rest) as (piece & pieces & Hsplit).
  rewrite Hsplit in *. destruct (Ascii.eqb_spec c sep) as [->|_].
  - rewrite str_join_cons, IH. reflexivity.
  - destruct pieces as [|piece' pieces].
    + cbn [str_join] in *. now rewrite IH.
    + rewrite str_join_cons in *. cbn [append]. now rewrite IH.
Qed.

Lemma str_split_pieces (s : string) :
  Forall (fun piece => str_count sep piece = 0) (str_split sep s).
Proof.
  induction s as [|c rest IH]; cbn [str_split].
  - constructor; [reflexivity | constructor].
  - destruct (Ascii.eqb c sep) eqn:Hc; [constructor; [reflexivity | exact IH]|].
    destruct (str_split sep rest) as [|piece pieces]; inversion IH; subst;
      constructor; cbn [str_count]; rewrite ?Hc; auto.
Qed.

(** A string with exactly one separator splits in two, and only such a
    string does. *)
Lemma str_split_two (s : string) :
  if Nat.eqb (str_count sep s) 1
  then exists a b, str_split sep s = [a; b] /\ s = (a ++ String sep b)%string
                   /\ str_count sep a = 0 /\ str_count sep b = 0
  else forall a b, str_split sep s <> [a; b].
Proof.
  pose proof (str_split_length s) as Hlen.
  pose proof (str_join_split s) as Hjoin.
  pose proof (str_split_pieces s) as Hpieces.
  destruct (Nat.eqb_spec (str_count sep s) 1) as [H1|H1].
  - rewrite H1 in Hlen.
    destruct (str_split sep s) as [|a [|b [|c l]]]; try discriminate.
    exists a, b. apply Forall_cons_iff in Hpieces as [Ha Hrest].
    apply Forall_cons_iff in Hrest as [Hb _]. cbn [str_join] in Hjoin. auto.
  - intros a b Heq. rewrite Heq in Hlen. cbn in Hlen. congruence.
Qed.

End Split.

(** *** Sequencing *)

Lemma bind_ret_r {A} (c : M A) (w : World) : bind c ret w = c w.
Proof. unfold bind, ret. now destruct (c w) as [[a|e] w']. Qed.

Lemma unpack2_two (a b : string) (w : World) : unpack2 [a; b] w = (Return (a, b), w).
Proof. reflexivity. Qed.

Lemma unpack2_other (pieces : list string) (w : World) :
  (forall a b, pieces <> [a; b]) ->
  unpack2 pieces w = (Raise (unpack_error pieces), w).
Proof.
  intros H. destruct pieces as [|a [|b [|c l]]]; try reflexivity.
  now destruct (H a b).
Qed.

(** X1.  [abandon_channel] splits its argument at [":"].  Unless the
    argument holds exactly one colon the call raises [ValueError] and the
    world is untouched: nothing is asked of the helper, of the stub or of the
    node.  With exactly one colon the two pieces, which joined by a colon
    give the argument back and hold no colon themselves, go to
    [channel_point_generator], and what it returns is sent as the
    [channel_point] of one AbandonChannel call. *)
Theorem abandon_channel_needs_one_colon :
  forall (lnd : list Event -> Channel -> string -> value -> result value)
         (channel_point_generator : string -> string -> M value)
         (channel_point : string) (w : World),
    if Nat.eqb (str_count ":"%char channel_point) 1
    then exists funding_txid output_index : string,
           channel_point = (funding_txid ++ ":" ++ output_index)%string
           /\ str_count ":"%char funding_txid = 0
           /\ str_count ":"%char output_index = 0
           /\ abandon_channel lnd channel_point_generator channel_point w
              = bind (channel_point_generator funding_txid output_index)
                  (fun p => unary_rpc lnd "AbandonChannel"
                              (message "AbandonChannelRequest" [("channel_point", p)])) w
    else exists e : exn,
           abandon_channel lnd channel_point_generator channel_point w = (Raise e, w)
           /\ exn_class e = ValueError.
Proof.
  intros lnd cpg cp w. pose proof (str_split_two ":"%char cp) as H.
  destruct (Nat.eqb (str_count ":"%char cp) 1).
  - destruct H as (a & b & Hsplit & Hjoin & Ha & Hb). exists a, b.
    repeat split; try assumption.
    unfold abandon_channel, bind at 1. now rewrite Hsplit, unpack2_two.
  - eexists. unfold abandon_channel, bind. rewrite (unpack2_other _ w H). split; reflexivity.
Qed.

(** X2.  [connect] splits its address at ["@"].  Unless the address holds
    exactly one [@] the call raises [ValueError] with the world untouched.
    With exactly one, the pieces [pubkey] and [host], which joined by [@]
    give the address back, go to [lightning_address], and what it returns is
    the [addr] of one [connect_peer], with [perm] defaulting to [0] and
    [timeout] to [None]. *)
Theorem connect_needs_one_at :
  forall (lnd_within : value -> list Event -> Channel -> string -> value -> result value)
         (lightning_address : string -> string -> M value)
         (address : string) (perm timeout : option value) (w : World),
    if Nat.eqb (str_count "@"%char address) 1
    then exists pubkey host : string,
           address = (pubkey ++ "@" ++ host)%string
           /\ str_count "@"%char pubkey = 0
           /\ str_count "@"%char host = 0
           /\ connect lnd_within lightning_address address perm timeout w
              = bind (lightning_address pubkey host)
                  (fun a => connect_peer lnd_within a
                              (Some (or_default perm (VInt 0)))
                              (Some (or_default timeout VNone))) w
    else exists e : exn,
           connect lnd_within lightning_address address perm timeout w = (Raise e, w)
           /\ exn_class e = ValueError.
Proof.
  intros lnd_within la address perm timeout w.
  pose proof (str_split_two "@"%char address) as H.
  destruct (Nat.eqb (str_count "@"%char address) 1).
  - destruct H as (a & b & Hsplit & Hjoin & Ha & Hb). exists a, b.
    repeat split; try assumption.
    unfold connect, bind at 1. rewrite Hsplit, unpack2_two.
    unfold bind. destruct (la a b w) as [[v|e] w1]; [|reflexivity].
    now destruct (connect_peer lnd_within v _ _ w1) as [[r|e] w2].
  - eexists. unfold connect, bind. rewrite (unpack2_other _ w H). split; reflexivity.
Qed.

(** *** The version property *)

Lemma lightning_stub_keeps_version (w : World) :
  _version (client (snd (lightning_stub w))) = _version (client w).
Proof.
  destruct (cached (client w)) eqn:Hc.
  - destruct (cached_inv _ Hc) as (stub & Hstub & Hflag).
    now rewrite (lightning_stub_hit w stub Hstub Hflag).
  - now rewrite (lightning_stub_miss w Hc), lightning_stub_fresh_run.
Qed.

Lemma str_attribute_pure (name : string) (response : value) (w : World) :
  snd (str_attribute name response w) = w.
Proof.
  unfold str_attribute. destruct response; try reflexivity.
  destruct (field name _) as [[]|]; reflexivity.
Qed.

Lemma str_split_hd_clean (sep : ascii) (s : string) :
  str_count sep (hd "" (str_split sep s)) = 0.
Proof.
  pose proof (str_split_pieces sep s) as H.
  destruct (str_split sep s); [reflexivity|]. now apply Forall_cons_iff in H as [H _].
Qed.

(** The fetch, step by step: one GetInfo operation, then the pure reading of
    the answer. *)
Lemma version_fetch_run (lnd : list Event -> Channel -> string -> value -> result value)
    (w : World) :
  version_fetch lnd w =
    match get_info lnd w with
    | (Return response, w1) =>
        match fst (str_attribute "version" response w1) with
        | Return v =>
            (Return (hd "" (str_split " "%char v)),
             mk_World (set__version (Some (hd "" (str_split " "%char v))) (client w1))
               (now w1) (runtime w1))
        | Raise e => (Raise e, w1)
        end
    | (Raise e, w1) => (Raise e, w1)
    end.
Proof.
  unfold version_fetch, bind at 1. destruct (get_info lnd w) as [[response|e] w1]; [|reflexivity].
  unfold bind. pose proof (str_attribute_pure "version" response w1) as Hpure.
  destruct (str_attribute "version" response w1) as [[v|e] w2]; cbn in Hpure; subst w2;
    reflexivity.
Qed.

Lemma version_run (lnd : list Event -> Channel -> string -> value -> result value)
    (w : World) :
  version lnd w =
    if truthy (_version (client w))
    then (Return (or_default (_version (client w)) ""), w)
    else version_fetch lnd w.
Proof.
  unfold version, bind, get_self. now destruct (truthy (_version (client w))).
Qed.

(** A fetch makes exactly one call, and stores what it returns. *)
Lemma version_fetch_effect (lnd : list Event -> Channel -> string -> value -> result value)
    (w : World) :
  calls (runtime (snd (version_fetch lnd w))) = calls (runtime w) + 1
  /\ match fst (version_fetch lnd w) with
     | Return first =>
         _version (client (snd (version_fetch lnd w))) = Some first
         /\ str_count " "%char first = 0
     | Raise _ =>
         _version (client (snd (version_fetch lnd w))) = _version (client w)
     end.
Proof.
  rewrite version_fetch_run.
  pose proof (unary_rpc_calls lnd "GetInfo" (message "GetInfoRequest" []) w) as Hcalls.
  assert (Hver : _version (client (snd (get_info lnd w))) = _version (client w)).
  { unfold get_info.
    destruct (unary_rpc_world lnd "GetInfo" (message "GetInfoRequest" []) w) as (s & _ & ->).
    cbn [snd client]. apply lightning_stub_keeps_version. }
  fold (get_info lnd) in Hcalls.
  destruct (get_info lnd w) as [[response|e] w1]; cbn [fst snd] in *; [|auto].
  destruct (fst (str_attribute "version" response w1)) as [v|e]; cbn [fst snd]; [|auto].
  split; [exact Hcalls|]. split; [reflexivity | apply str_split_hd_clean].
Qed.

(** X4.  Reading [version].  While a non-empty version is cached the read
    returns it and touches nothing: no stub access, no call.  Otherwise the
    read makes exactly one call to the node; when it returns, what it
    returns is stored in [_version] and holds no space (it is the first word
    of the node's answer); when it raises, [_version] is as before. *)
Theorem version_reads_node_once :
  forall (lnd : list Event -> Channel -> string -> value -> result value) (w : World),
    if truthy (_version (client w))
    then exists v : string,
           _version (client w) = Some v /\ v <> "" /\ version lnd w = (Return v, w)
    else calls (runtime (snd (version lnd w))) = calls (runtime w) + 1
         /\ match fst (version lnd w) with
            | Return first =>
                _version (client (snd (version lnd w))) = Some first
                /\ str_count " "%char first = 0
            | Raise _ =>
                _version (client (snd (version lnd w))) = _version (client w)
            end.
Proof.
  intros lnd w. rewrite version_run.
  destruct (truthy (_version (client w))) eqn:Ht.
  - unfold truthy in Ht. destruct (_version (client w)) as [v|]; [|discriminate].
    exists v. repeat split. intros ->. discriminate.
  - apply version_fetch_effect.
Qed.

(** X5.  When the first word of the version the node reports is empty (the
    answer is empty, unset, or starts with a space), the read returns the
    empty string and caches it; the empty string counts as no cache, so the
    next read calls the node again, whatever node it talks to. *)
Theorem version_empty_is_not_cached :
  forall (lnd lnd' : list Event -> Channel -> string -> value -> result value)
         (w : World) (response : value) (v : string),
    truthy (_version (client w)) = false ->
    fst (get_info lnd w) = Return response ->
    fst (str_attribute "version" response w) = Return v ->
    hd "" (str_split " "%char v) = "" ->
    let w1 := snd (version lnd w) in
    fst (version lnd w) = Return ""
    /\ _version (client w1) = Some ""
    /\ calls (runtime (snd (version lnd' w1))) = calls (runtime w1) + 1.
Proof.
  intros lnd lnd' w response v Ht Hinfo Hattr Hhd w1.
  assert (Hrun : version lnd w =
            (Return "", mk_World (set__version (Some "") (client (snd (get_info lnd w))))
                          (now (snd (get_info lnd w))) (runtime (snd (get_info lnd w))))).
  { rewrite version_run, Ht, version_fetch_run.
    destruct (get_info lnd w) as [r w0]. cbn [fst snd] in *. subst r.
    assert (Hattr' : fst (str_attribute "version" response w0) = Return v).
    { rewrite <- Hattr. unfold str_attribute. destruct response; try reflexivity.
      destruct (field "version" _) as [[]|]; reflexivity. }
    rewrite Hattr', Hhd. reflexivity. }
  subst w1. rewrite Hrun. cbn [fst snd client].
  split; [reflexivity|]. split; [reflexivity|].
  rewrite version_run. cbn [client set__version _version truthy String.eqb negb].
  apply version_fetch_effect.
Qed.

(** The theorem at a fresh client whose node reports no version. *)
Lemma version_empty_is_not_cached_witness :
  fst (version (answering []) fresh_world) = Return ""
  /\ calls (runtime (snd (version (answering []) (snd (version (answering []) fresh_world))))) = 2.
Proof.
  pose proof (version_empty_is_not_cached (answering []) (answering []) fresh_world
                (message "GetInfoResponse" []) "" eq_refl eq_refl eq_refl eq_refl)
    as (H1 & _ & H3).
  split; [exact H1 | exact H3].
Defined.

(** *** Payments *)

Lemma kw_get_found (name : string) (kw : kwargs) (w : World) :
  kw_mem name kw = true ->
  exists v, find (fun p => String.eqb (fst p) name) kw = Some (name, v)
            /\ kw_get name kw w = (Return v, w).
Proof.
  unfold kw_mem, kw_get. induction kw as [|[k v] kw IH]; cbn; [discriminate|].
  destruct (String.eqb_spec k name) as [->|_]; cbn; [now exists v | exact IH].
Qed.

(** X3.  [send_payment_sync] with a [payment_request] keyword sends the
    [SendRequest] made of that keyword and, when given, [amt], and of nothing
    else: every other keyword of the call is left out.  Without
    [payment_request] the [SendRequest] holds all keywords as they are.
    [pay_invoice] sends the [SendRequest] of the payment request alone.  Each
    is one SendPaymentSync operation. *)
Theorem send_payment_sync_prefers_payment_request :
  forall (lnd : list Event -> Channel -> string -> value -> result value)
         (kw : kwargs) (w : World),
    (if kw_mem "payment_request" kw
     then exists pr : value,
            find (fun p => String.eqb (fst p) "payment_request") kw
            = Some ("payment_request", pr)
            /\ if kw_mem "amt" kw
               then exists amt : value,
                      find (fun p => String.eqb (fst p) "amt") kw = Some ("amt", amt)
                      /\ send_payment_sync lnd kw w
                         = unary_rpc lnd "SendPaymentSync"
                             (message "SendRequest"
                                [("payment_request", pr); ("amt", amt)]) w
               else send_payment_sync lnd kw w
                    = unary_rpc lnd "SendPaymentSync"
                        (message "SendRequest" [("payment_request", pr)]) w
     else send_payment_sync lnd kw w
          = unary_rpc lnd "SendPaymentSync" (message "SendRequest" kw) w)
    /\ (forall payment_request : string,
          pay_invoice lnd payment_request w
          = unary_rpc lnd "SendPaymentSync"
              (message "SendRequest" [("payment_request", VStr payment_request)]) w).
Proof.
  intros lnd kw w. split.
  - unfold send_payment_sync. destruct (kw_mem "payment_request" kw) eqn:Hpr; [|reflexivity].
    destruct (kw_get_found "payment_request" kw w Hpr) as (pr & Hfind & Hget).
    exists pr. split; [exact Hfind|].
    destruct (kw_mem "amt" kw) eqn:Hamt.
    + destruct (kw_get_found "amt" kw w Hamt) as (amt & Hfind' & Hget').
      exists amt. split; [exact Hfind'|].
      unfold bind. rewrite Hget, Hget'. reflexivity.
    + unfold bind. rewrite Hget. reflexivity.
  - intros payment_request. unfold pay_invoice. rewrite bind_ret_r. reflexivity.
Qed.

(** *** The shape of the connection along a run *)

Lemma closed_app (ch : Channel) (l l' : list Event) :
  closed ch (l ++ l') = closed ch l || closed ch l'.
Proof. apply existsb_app. Qed.

Lemma closes_below_app (n : nat) (l l' : list Event) :
  closes_below n (l ++ l') = closes_below n l && closes_below n l'.
Proof. apply forallb_app. Qed.

Lemma closes_below_mono (n m : nat) (log : list Event) :
  n <= m -> closes_below n log = true -> closes_below m log = true.
Proof.
  intros Hle. unfold closes_below. rewrite !forallb_forall. intros H e He.
  specialize (H e He). destruct e; auto.
  apply Nat.ltb_lt in H. apply Nat.ltb_lt. lia.
Qed.

Lemma closes_below_not_closed (n ch : nat) (log : list Event) :
  closes_below n log = true -> n <= ch -> closed ch log = false.
Proof.
  unfold closes_below, closed. rewrite forallb_forall. intros H Hle.
  apply not_true_is_false. intros Hex. apply existsb_exists in Hex as (e & He & Hc).
  specialize (H e He). destruct e; try discriminate.
  apply Nat.ltb_lt in H. apply Nat.eqb_eq in Hc. lia.
Qed.

(** [consistent], clause by clause. *)
Lemma consistent_iff (w : World) :
  consistent w = true <->
  (forall ch, channel (client w) = Some ch ->
     ch < builds (runtime w)
     /\ (closed ch (runtime w) = true -> connection_status_change (client w) = true))
  /\ (forall stub, _lightning_stub (client w) = Some stub ->
        channel (client w) = Some (stub_channel stub))
  /\ closes_below (builds (runtime w)) (runtime w) = true.
Proof.
  unfold consistent. rewrite !andb_true_iff. split.
  - intros [[Hch Hstub] Hbelow]. repeat split; try assumption.
    + destruct (channel (client w)); inversion H; subst.
      apply andb_true_iff in Hch as [Hlt _]. now apply Nat.ltb_lt.
    + intros Hclosed. destruct (channel (client w)); inversion H; subst.
      apply andb_true_iff in Hch as [_ Hflag]. rewrite Hclosed in Hflag. exact Hflag.
    + intros stub Hs. rewrite Hs in Hstub. destruct (channel (client w)); [|discriminate].
      apply Nat.eqb_eq in Hstub. now subst.
  - intros (Hch & Hstub & Hbelow). repeat split; try assumption.
    + destruct (channel (client w)) as [ch|]; [|reflexivity].
      destruct (Hch ch eq_refl) as [Hlt Hflag]. apply andb_true_iff. split.
      * now apply Nat.ltb_lt.
      * destruct (closed ch (runtime w)); [now rewrite Hflag|reflexivity].
    + destruct (_lightning_stub (client w)) as [stub|]; [|reflexivity].
      rewrite (Hstub stub eq_refl). apply Nat.eqb_refl.
Qed.

Lemma rebuild_events_closed (self : Lightning) (ch ch' : Channel) :
  closed ch' (rebuild_events self ch) = false
  /\ closes_below (S ch) (rebuild_events self ch) = true.
Proof. split; reflexivity. Qed.

(** One access keeps the shape, and the stub it returns is bound to the
    channel the client then holds, which is not closed. *)
Lemma lightning_stub_consistent (w : World) :
  consistent w = true ->
  consistent (snd (lightning_stub w)) = true
  /\ exists stub,
       fst (lightning_stub w) = Return stub
       /\ channel (client (snd (lightning_stub w))) = Some (stub_channel stub)
       /\ closed (stub_channel stub) (runtime (snd (lightning_stub w))) = false.
Proof.
  intros Hw. pose proof (proj1 (consistent_iff w) Hw) as (Hch & Hstub & Hbelow).
  destruct (cached (client w)) eqn:Hc.
  - destruct (cached_inv _ Hc) as (stub & Hs & Hflag).
    rewrite (lightning_stub_hit w stub Hs Hflag). cbn [fst snd].
    split; [exact Hw|]. exists stub. split; [reflexivity|].
    split; [now apply Hstub|].
    destruct (Hch _ (Hstub stub Hs)) as [_ Hclosed].
    destruct (closed (stub_channel stub) (runtime w)); [|reflexivity].
    rewrite Hclosed in Hflag by reflexivity. discriminate.
  - rewrite (lightning_stub_miss w Hc), lightning_stub_fresh_run. cbn [fst snd].
    assert (Hfresh : closed (builds (runtime w))
                       (runtime w ++ rebuild_events (client w) (builds (runtime w))) = false).
    { rewrite closed_app, (closes_below_not_closed _ _ _ Hbelow (le_n _)). reflexivity. }
    split.
    + apply consistent_iff. cbn [client runtime rebuilt channel _lightning_stub
        connection_status_change]. rewrite builds_app.
      destruct (rebuild_events_builds (client w) (builds (runtime w))) as (-> & _).
      repeat split.
      * inversion H; subst. lia.
      * inversion H; subst. rewrite Hfresh. discriminate.
      * intros stub Hs. inversion Hs; subst. reflexivity.
      * rewrite closes_below_app. apply andb_true_iff. split.
        -- apply (closes_below_mono (builds (runtime w))); [lia | exact Hbelow].
        -- rewrite Nat.add_1_r. apply rebuild_events_closed; exact 0.
    + eexists. split; [reflexivity|]. split; [reflexivity | exact Hfresh].
Qed.

Lemma rpc_logged_consistent (self : Lightning) (t : Z) (log : list Event)
    (ch : Channel) (method : string) (request : value) :
  consistent (mk_World self t log) = true ->
  consistent (mk_World self t (log ++ [rpc ch method request])) = true.
Proof.
  unfold consistent. cbn [client runtime].
  rewrite builds_app, closes_below_app. cbn [builds count filter is_secure_channel List.length].
  rewrite Nat.add_0_r. cbn [closes_below forallb]. rewrite !andb_true_r.
  destruct (channel self) as [c|]; [|auto]. rewrite closed_app. cbn [closed existsb].
  now rewrite orb_false_r.
Qed.

Lemma unary_rpc_consistent
    (lnd : list Event -> Channel -> string -> value -> result value)
    (method : string) (request : value) (w : World) :
  consistent w = true ->
  consistent (snd (unary_rpc lnd method request w)) = true
  /\ exists new,
       runtime (snd (unary_rpc lnd method request w)) = runtime w ++ new
       /\ calls_on_open (runtime w) new = true.
Proof.
  intros Hw. destruct (lightning_stub_consistent w Hw) as (Hw1 & stub & Hret & Hch & Hopen).
  destruct (unary_rpc_world lnd method request w) as (stub' & Hret' & ->).
  rewrite Hret in Hret'. inversion Hret'; subst stub'. cbn [snd].
  split.
  - apply rpc_logged_consistent. now destruct (snd (lightning_stub w)).
  - cbn [runtime]. destruct (cached (client w)) eqn:Hc.
    + destruct (cached_inv _ Hc) as (s & Hs & Hflag).
      rewrite (lightning_stub_hit w s Hs Hflag) in *. cbn [snd fst] in *.
      exists [rpc (stub_channel stub) method request]. split; [reflexivity|].
      cbn [calls_on_open]. now rewrite Hopen.
    + rewrite (lightning_stub_miss w Hc), lightning_stub_fresh_run in *.
      cbn [snd fst runtime] in *.
      exists (rebuild_events (client w) (builds (runtime w))
                ++ [rpc (stub_channel stub) method request]).
      split; [now rewrite app_assoc|].
      unfold rebuild_events. cbn [calls_on_open app andb].
      rewrite <- !app_assoc. cbn [app]. unfold rebuild_events in Hopen. now rewrite Hopen.
Qed.

Lemma recovered_consistent (w : World) :
  consistent w = true -> consistent (recovered w) = true.
Proof.
  intros Hw. pose proof (proj1 (consistent_iff w) Hw) as (Hch & Hstub & Hbelow).
  apply consistent_iff. unfold recovered.
  cbn [client runtime set_connection_status_change channel _lightning_stub
       connection_status_change].
  rewrite builds_app.
  assert (Hb : builds (match channel (client w) with
                       | Some ch => [channel_closed ch]
                       | None => []
                       end) = 0) by (destruct (channel (client w)); reflexivity).
  rewrite Hb, Nat.add_0_r. repeat split; auto.
  - now apply Hch.
  - rewrite closes_below_app, Hbelow. destruct (channel (client w)) as [ch|]; [|reflexivity].
    unfold closes_below. cbn [forallb]. destruct (Hch ch eq_refl) as [Hlt _].
    apply Nat.ltb_lt in Hlt. now rewrite Hlt.
Qed.

Lemma calls_on_open_app (past a b : list Event) :
  calls_on_open past (a ++ b) = calls_on_open past a && calls_on_open (past ++ a) b.
Proof.
  revert past. induction a as [|e a IH]; intros past; cbn [app calls_on_open].
  - now rewrite app_nil_r.
  - rewrite IH, <- app_assoc, andb_assoc. reflexivity.
Qed.

(** One step keeps the shape and sends its calls on channels not yet closed. *)
Lemma do_step_consistent
    (lnd : list Event -> Channel -> string -> value -> result value)
    (s : step) (w : World) :
  consistent w = true ->
  consistent (do_step lnd s w) = true
  /\ exists new,
       runtime (do_step lnd s w) = runtime w ++ new
       /\ calls_on_open (runtime w) new = true.
Proof.
  intros Hw. destruct s as [|method request|method request]; cbn [do_step].
  - destruct (lightning_stub_consistent w Hw) as (Hw1 & _). split; [exact Hw1|].
    destruct (cached (client w)) eqn:Hc.
    + destruct (cached_inv _ Hc) as (stub & Hs & Hflag).
      rewrite (lightning_stub_hit w stub Hs Hflag). exists []. now rewrite app_nil_r.
    + rewrite (lightning_stub_miss w Hc), lightning_stub_fresh_run. eexists.
      split; reflexivity.
  - now apply unary_rpc_consistent.
  - rewrite retry_run.
    destruct (unary_rpc_consistent lnd method request w Hw) as (Hw1 & new1 & Hlog1 & Hopen1).
    destruct (unary_rpc lnd method request w) as [[a|e] w1]; cbn [snd] in *.
    + split; [exact Hw1 | now exists new1].
    + destruct (unavailable e).
      * pose proof (recovered_consistent w1 Hw1) as Hw2.
        destruct (unary_rpc_consistent lnd method request (recovered w1) Hw2)
          as (Hw3 & new2 & Hlog2 & Hopen2).
        split; [exact Hw3|].
        exists (new1 ++ match channel (client w1) with
                        | Some ch => [channel_closed ch]
                        | None => []
                        end ++ new2).
        split.
        -- rewrite Hlog2. unfold recovered. cbn [runtime]. rewrite Hlog1.
           now rewrite <- !app_assoc.
        -- rewrite calls_on_open_app, Hopen1. cbn [andb].
           rewrite calls_on_open_app. apply andb_true_iff. split.
           ++ destruct (channel (client w1)); reflexivity.
           ++ rewrite <- Hlog1. unfold recovered in Hopen2. exact Hopen2.
      * split; [exact Hw1 | now exists new1].
Qed.

Lemma run_cons (lnd : list Event -> Channel -> string -> value -> result value)
    (s : step) (steps : list step) (w : World) :
  run lnd (s :: steps) w = run lnd steps (do_step lnd s w).
Proof. reflexivity. Qed.

Lemma run_consistent
    (lnd : list Event -> Channel -> string -> value -> result value)
    (steps : list step) (w : World) :
  consistent w = true ->
  consistent (run lnd steps w) = true
  /\ exists new,
       runtime (run lnd steps w) = runtime w ++ new
       /\ calls_on_open (runtime w) new = true.
Proof.
  revert w. induction steps as [|s steps IH]; intros w Hw.
  - split; [exact Hw|]. exists []. now rewrite app_nil_r.
  - rewrite run_cons.
    destruct (do_step_consistent lnd s w Hw) as (Hw1 & new1 & Hlog1 & Hopen1).
    destruct (IH _ Hw1) as (Hw2 & new2 & Hlog2 & Hopen2).
    split; [exact Hw2|]. exists (new1 ++ new2). split.
    + now rewrite Hlog2, Hlog1, app_assoc.
    + rewrite calls_on_open_app, Hopen1, <- Hlog1. exact Hopen2.
Qed.

(** X6.  Along every run of accesses, unary operations and retried unary
    operations that starts from a consistent connection (a fresh client is
    one), the stub the client holds is bound to the channel it holds, and
    the client never answers from its cache while that channel is closed. *)
Theorem connection_stays_consistent :
  forall (lnd : list Event -> Channel -> string -> value -> result value)
         (steps : list step) (w : World),
    consistent w = true ->
    let w' := run lnd steps w in
    consistent w' = true
    /\ (forall stub, _lightning_stub (client w') = Some stub ->
          channel (client w') = Some (stub_channel stub))
    /\ (forall ch, channel (client w') = Some ch ->
          cached (client w') = true -> closed ch (runtime w') = false)
    /\ (forall (address : string) (flag : bool) (t : Z),
          consistent (boot (set_connection_status_change flag (Lightning__init__ address)) t)
          = true).
Proof.
  intros lnd steps w Hw w'. destruct (run_consistent lnd steps w Hw) as [Hw' _].
  fold w' in Hw'. pose proof (proj1 (consistent_iff w') Hw') as (Hch & Hstub & _).
  split; [exact Hw'|]. split; [exact Hstub|]. split; [|reflexivity].
  intros ch Hc Hcached. destruct (cached_inv _ Hcached) as (_ & _ & Hflag).
  destruct (Hch ch Hc) as [_ Hclosed].
  destruct (closed ch (runtime w')); [|reflexivity].
  rewrite Hclosed in Hflag by reflexivity. discriminate.
Qed.

(** The theorem at a run against a node that is unreachable once. *)
Lemma connection_stays_consistent_witness :
  consistent ready_world = true
  /\ consistent (run flaky [Retried "WalletBalance" (message "WalletBalanceRequest" []);
                            Call "GetInfo" (message "GetInfoRequest" []); Access]
                   ready_world) = true.
Proof.
  split; [reflexivity|].
  exact (proj1 (connection_stays_consistent flaky
                  [Retried "WalletBalance" (message "WalletBalanceRequest" []);
                   Call "GetInfo" (message "GetInfoRequest" []); Access]
                  ready_world eq_refl)).
Defined.

(** X7.  Along every such run, every call to the node goes out on a channel
    that has not been closed at that moment: the invoker closes a channel
    only after raising the flag, and the accessor then replaces it before
    the next call. *)
Theorem no_call_on_closed_channel :
  forall (lnd : list Event -> Channel -> string -> value -> result value)
         (steps : list step) (w : World),
    consistent w = true ->
    exists new : list Event,
      runtime (run lnd steps w) = runtime w ++ new
      /\ calls_on_open (runtime w) new = true.
Proof.
  intros lnd steps w Hw. exact (proj2 (run_consistent lnd steps w Hw)).
Qed.

(** The theorem at a fresh client retrying against a node that is down. *)
Lemma no_call_on_closed_channel_witness :
  consistent fresh_world = true
  /\ exists new : list Event,
       runtime (run down [Retried "WalletBalance" (message "WalletBalanceRequest" []);
                          Retried "GetInfo" (message "GetInfoRequest" [])] fresh_world)
       = runtime fresh_world ++ new
       /\ calls_on_open (runtime fresh_world) new = true.
Proof.
  split; [reflexivity|].
  exact (no_call_on_closed_channel down
           [Retried "WalletBalance" (message "WalletBalanceRequest" []);
            Retried "GetInfo" (message "GetInfoRequest" [])] fresh_world eq_refl).
Defined.

(** *** How many channels a run builds *)

Lemma closes_app (l l' : list Event) : closes (l ++ l') = closes l + closes l'.
Proof. apply count_app. Qed.

(** A step that does not go through the invoker is one access, then at most
    a call. *)
Lemma plain_step_run
    (lnd : list Event -> Channel -> string -> value -> result value)
    (s : step) (w : World) :
  plain s = true ->
  client (do_step lnd s w) = client (snd (lightning_stub w))
  /\ builds (runtime (do_step lnd s w))
     = builds (runtime w) + (if cached (client w) then 0 else 1)
  /\ closes (runtime (do_step lnd s w)) = closes (runtime w).
Proof.
  intros Hs. destruct s as [|method request|method request]; [| |discriminate];
    cbn [do_step].
  - split; [reflexivity|]. split; [|apply lightning_stub_never_closes].
    destruct (cached (client w)) eqn:Hc.
    + destruct (cached_inv _ Hc) as (stub & Hstub & Hflag).
      rewrite (lightning_stub_hit w stub Hstub Hflag). cbn. lia.
    + rewrite (lightning_stub_miss w Hc), lightning_stub_fresh_run. cbn [snd runtime].
      now rewrite builds_app.
  - split; [|split; [apply unary_rpc_builds|]].
    + now destruct (unary_rpc_world lnd method request w) as (stub & _ & ->).
    + destruct (unary_rpc_world lnd method request w) as (stub & _ & ->).
      cbn [snd runtime]. rewrite closes_app. cbn [closes count filter is_channel_closed List.length].
      rewrite Nat.add_0_r. apply lightning_stub_never_closes.
Qed.

Lemma lightning_stub_client (w : World) :
  client (snd (lightning_stub w))
  = if cached (client w) then client w else rebuilt (client w) (builds (runtime w)).
Proof.
  destruct (cached (client w)) eqn:Hc.
  - destruct (cached_inv _ Hc) as (stub & Hstub & Hflag).
    now rewrite (lightning_stub_hit w stub Hstub Hflag).
  - now rewrite (lightning_stub_miss w Hc), lightning_stub_fresh_run.
Qed.

(** X8.  Until a first connectivity state has been recorded
    ([connection_status] is [None]) a client that is not answering from its
    cache, such as a fresh one, builds a new channel at every access and at
    every unary operation, and closes none of them: a run of [n] such steps
    builds exactly [n] channels. *)
Theorem every_step_rebuilds_while_status_unknown :
  forall (lnd : list Event -> Channel -> string -> value -> result value)
         (steps : list step) (w : World),
    forallb plain steps = true ->
    connection_status (client w) = None ->
    cached (client w) = false ->
    let w' := run lnd steps w in
    builds (runtime w') = builds (runtime w) + List.length steps
    /\ closes (runtime w') = closes (runtime w)
    /\ cached (client w') = false
    /\ connection_status (client w') = None.
Proof.
  intros lnd steps. induction steps as [|s steps IH]; intros w Hplain Hstatus Hc.
  - cbn. repeat split; auto.
  - cbn [forallb] in Hplain. apply andb_true_iff in Hplain as [Hs Hrest].
    rewrite run_cons. cbv zeta.
    destruct (plain_step_run lnd s w Hs) as (Hclient & Hbuilds & Hcloses).
    rewrite lightning_stub_client, Hc in Hclient. rewrite Hc in Hbuilds.
    assert (Hstatus1 : connection_status (client (do_step lnd s w)) = None)
      by (rewrite Hclient; exact Hstatus).
    assert (Hc1 : cached (client (do_step lnd s w)) = false).
    { rewrite Hclient. unfold cached, rebuilt. cbn. now rewrite Hstatus. }
    destruct (IH _ Hrest Hstatus1 Hc1) as (H1 & H2 & H3 & H4).
    rewrite H1, H2, Hbuilds, Hcloses. cbn [List.length]. repeat split; auto. lia.
Qed.

(** The theorem at a fresh client and four steps. *)
Lemma every_step_rebuilds_while_status_unknown_witness :
  builds (runtime (run (answering [])
                     [Access; Call "GetInfo" (message "GetInfoRequest" []); Access;
                      Call "WalletBalance" (message "WalletBalanceRequest" [])]
                     fresh_world)) = 4
  /\ closes (runtime (run (answering [])
                        [Access; Call "GetInfo" (message "GetInfoRequest" []); Access;
                         Call "WalletBalance" (message "WalletBalanceRequest" [])]
                        fresh_world)) = 0.
Proof.
  pose proof (every_step_rebuilds_while_status_unknown (answering [])
                [Access; Call "GetInfo" (message "GetInfoRequest" []); Access;
                 Call "WalletBalance" (message "WalletBalanceRequest" [])]
                fresh_world eq_refl eq_refl eq_refl) as (H1 & H2 & _).
  split; [exact H1 | exact H2].
Defined.






(** *** What one invocation through the invoker costs *)

Lemma unary_rpc_closes
    (lnd : list Event -> Channel -> string -> value -> result value)
    (method : string) (request : value) (w : World) :
  closes (runtime (snd (unary_rpc lnd method request w))) = closes (runtime w).
Proof.
  destruct (unary_rpc_world lnd method request w) as (stub & _ & ->).
  cbn [snd runtime]. rewrite closes_app. cbn [closes count filter is_channel_closed List.length].
  rewrite Nat.add_0_r. apply lightning_stub_never_closes.
Qed.

Lemma recovered_closes (w : World) : closes (runtime (recovered w)) <= closes (runtime w) + 1.
Proof.
  unfold recovered. cbn [runtime]. rewrite closes_app.
  destruct (channel (client w)); cbn; lia.
Qed.

(** X10.  One invocation of a unary operation through [retry], from any
    world and against any node: the node is called once, or twice when the
    first call raised an error classified as UNAVAILABLE; besides the channel
    the first attempt may build, one more is built exactly in that second
    case; at most one channel is closed, and only in that case.  When the
    first attempt is not retried, its outcome is the invoker's. *)
Theorem retry_costs_at_most_one_more_call :
  forall (lnd : list Event -> Channel -> string -> value -> result value)
         (target : Target) (method : string) (request : value) (args : Args) (w : World),
    let op := fun _ : Args => unary_rpc lnd method request in
    let retried :=
      match fst (op args w) with
      | Raise e => unavailable e
      | Return _ => false
      end in
    let w' := snd (retry target op args w) in
    calls (runtime w') = calls (runtime w) + (if retried then 2 else 1)
    /\ builds (runtime w')
       = builds (runtime w) + (if cached (client w) then 0 else 1)
         + (if retried then 1 else 0)
    /\ closes (runtime w') <= closes (runtime w) + (if retried then 1 else 0)
    /\ (if retried then True else retry target op args w = op args w).
Proof.
  intros lnd target method request args w op retried w'. subst w' retried op. cbv beta.
  rewrite retry_run.
  pose proof (unary_rpc_calls lnd method request w) as Hcalls.
  pose proof (unary_rpc_builds lnd method request w) as Hbuilds.
  pose proof (unary_rpc_closes lnd method request w) as Hcloses.
  destruct (unary_rpc lnd method request w) as [[a|e] w1]; cbn [fst snd] in *.
  - repeat split; lia.
  - destruct (unavailable e); cbn [fst snd].
    + rewrite unary_rpc_calls, unary_rpc_builds, unary_rpc_closes.
      rewrite recovered_not_cached, recovered_builds, recovered_calls.
      pose proof (recovered_closes w1). repeat split; lia.
    + repeat split; lia.
Qed.

Lemma lightning_stub_keeps_address (w : World) :
  grpc_address (client (snd (lightning_stub w))) = grpc_address (client w).
Proof. rewrite lightning_stub_client. now destruct (cached (client w)). Qed.

(** X11.  When the first attempt of a unary operation run through [retry] on
    a consistent connection fails as UNAVAILABLE, the log of the invocation
    is: the first access, the call on the channel [ch0] then held, the close
    of [ch0], the construction of a channel [ch1] never seen before, and the
    same method with the same request on [ch1].  The request is thus sent
    twice, unchanged. *)
Theorem retry_resends_the_request_on_a_new_channel :
  forall (lnd : list Event -> Channel -> string -> value -> result value)
         (target : Target) (method : string) (request : value) (args : Args)
         (w : World) (e : exn),
    consistent w = true ->
    fst (unary_rpc lnd method request w) = Raise e ->
    unavailable e = true ->
    let w0 := snd (lightning_stub w) in
    exists ch0 ch1 : Channel,
      fst (lightning_stub w) = Return (mk_stub ch0)
      /\ ch1 = builds (runtime w0)
      /\ ch0 < ch1
      /\ runtime (snd (retry target (fun _ => unary_rpc lnd method request) args w))
         = runtime w0 ++ [rpc ch0 method request; channel_closed ch0]
             ++ rebuild_events (client w) ch1 ++ [rpc ch1 method request].
Proof.
  intros lnd target method request args w e Hw Hfirst Hun w0.
  destruct (lightning_stub_consistent w Hw) as (Hw0 & stub & Hret & Hch & _).
  fold w0 in Hw0, Hch.
  pose proof (proj1 (consistent_iff w0) Hw0) as (Hlt & _).
  destruct (Hlt _ Hch) as [Hlt0 _].
  exists (stub_channel stub), (builds (runtime w0)).
  split; [now destruct stub|]. split; [reflexivity|]. split; [exact Hlt0|].
  rewrite retry_run.
  destruct (unary_rpc_world lnd method request w) as (stub' & Hret' & Hrun).
  rewrite Hret in Hret'. inversion Hret'; subst stub'. fold w0 in Hrun.
  rewrite Hrun in *. cbn [fst] in Hfirst. rewrite Hfirst, Hun.
  set (w1 := mk_World (client w0) (now w0)
               (runtime w0 ++ [rpc (stub_channel stub) method request])).
  destruct (unary_rpc_world lnd method request (recovered w1)) as (stub2 & Hret2 & ->).
  cbn [snd runtime].
  rewrite (lightning_stub_miss _ (recovered_not_cached w1)), lightning_stub_fresh_run in *.
  cbn [fst snd runtime] in *. inversion Hret2; subst stub2. cbn [stub_channel].
  rewrite recovered_builds. unfold recovered, w1. cbn [runtime client].
  rewrite Hch, builds_app. cbn [builds count filter is_secure_channel List.length].
  rewrite Nat.add_0_r.
  assert (Haddr : rebuild_events (set_connection_status_change true (client w0))
                    (builds (runtime w0))
                  = rebuild_events (client w) (builds (runtime w0))).
  { unfold rebuild_events. cbn [set_connection_status_change grpc_address].
    unfold w0. now rewrite lightning_stub_keeps_address. }
  rewrite Haddr, <- !app_assoc. cbn [app].
  rewrite (builds_app (runtime w0)). cbn [builds count filter is_secure_channel List.length].
  rewrite Nat.add_0_r. reflexivity.
Qed.

(** The theorem at [wallet_balance] on a ready connection to a node that is
    unreachable for the first call. *)
Lemma retry_resends_the_request_on_a_new_channel_witness :
  exists ch0 ch1 : Channel,
    fst (lightning_stub ready_world) = Return (mk_stub ch0)
    /\ ch1 = 1
    /\ ch0 < ch1
    /\ runtime (snd (retry (Client flaky)
                       (fun _ => unary_rpc flaky "WalletBalance"
                                   (message "WalletBalanceRequest" []))
                       ([], []) ready_world))
       = runtime ready_world
           ++ [rpc ch0 "WalletBalance" (message "WalletBalanceRequest" []);
               channel_closed ch0]
           ++ rebuild_events (client ready_world) ch1
           ++ [rpc ch1 "WalletBalance" (message "WalletBalanceRequest" [])].
Proof.
  exact (retry_resends_the_request_on_a_new_channel flaky (Client flaky) "WalletBalance"
           (message "WalletBalanceRequest" []) ([], []) ready_world
           (mk_exn _Rendezvous (Some UNAVAILABLE) "failed to connect to all addresses")
           eq_refl eq_refl eq_refl).
Defined.

(** *** Proxies *)

Lemma reachable_fields (client : Target) (p : ObjectProxy) :
  reachable client p ->
  _target p = client /\ _invoker p = @retry value
  /\ (_callable p = None -> p = get_persistent_client client).
Proof.
  induction 1 as [|p q name w w' Hp (Ht & Hi & _) Hattr].
  - repeat split.
  - unfold __getattr__, bind in Hattr.
    destruct (getattribute (_target p) name w) as [[[v|f]|e] w1]; try discriminate.
    inversion Hattr; subst. cbn. repeat split; try assumption. discriminate.
Qed.

(** X12.  Every proxy a program can reach from [get_persistent_client], by
    any chain of attribute accesses, looks attributes up on the client itself
    (not on the callable it wraps) and runs its calls through [retry] on that
    client.  Only the root proxy wraps no callable, and calling it raises
    [TypeError] without touching the world. *)
Theorem reachable_proxies_retry_on_the_client :
  forall (client : Target) (p : ObjectProxy),
    reachable client p ->
    (forall (name : string) (w : World),
       __getattr__ p name w = __getattr__ (get_persistent_client client) name w)
    /\ (forall (args : Args) (w : World),
          __call__ p args w =
            match _callable p with
            | Some f => retry client f args w
            | None => (Raise NoneType_not_callable, w)
            end)
    /\ (_callable p = None -> p = get_persistent_client client).
Proof.
  intros client p Hp. destruct (reachable_fields client p Hp) as (Ht & Hi & Hroot).
  split; [|split; [|exact Hroot]].
  - intros name w. unfold __getattr__. cbn [get_persistent_client _target _invoker].
    now rewrite Ht, Hi.
  - intros args w. unfold __call__. rewrite Ht, Hi.
    destruct (_callable p); [reflexivity|]. now rewrite retry_run.
Qed.

(** The theorem at the wrapper of [wallet_balance]: an attribute read on the
    wrapper is a read on the client. *)
Lemma reachable_proxies_retry_on_the_client_witness :
  match fst (__getattr__ (get_persistent_client (Client flaky)) "wallet_balance" ready_world) with
  | Return (Wrapped q) =>
      __getattr__ q "grpc_address" ready_world = (Return (Plain (VStr localhost)), ready_world)
  | _ => False
  end.
Proof.
  assert (Hr : exists q,
             __getattr__ (get_persistent_client (Client flaky)) "wallet_balance" ready_world
             = (Return (Wrapped q), ready_world))
    by (eexists; reflexivity).
  destruct Hr as [q Hr]. rewrite Hr. cbn [fst].
  rewrite (proj1 (reachable_proxies_retry_on_the_client (Client flaky) q
                    (reach_attr _ _ _ _ _ _ (reach_root _) Hr))).
  reflexivity.
Defined.

(** *** Assigning the version *)

(** X13.  Assigning [version] and reading it back.  After the setter stores
    a non-empty string, a read returns that string and leaves the world as
    the setter left it: the node is not asked.  After it stores [None] or the
    empty string, the next read asks the node, once.  The setter itself only
    changes [_version]. *)
Theorem version_setter_then_getter :
  forall (lnd : list Event -> Channel -> string -> value -> result value)
         (v : option string) (w : World),
    let w1 := snd (version_setter v w) in
    w1 = mk_World (set__version v (client w)) (now w) (runtime w)
    /\ (if truthy v
        then version lnd w1 = (Return (or_default v ""), w1)
        else calls (runtime (snd (version lnd w1))) = calls (runtime w) + 1).
Proof.
  intros lnd v w w1. subst w1. unfold version_setter, update_self. cbn [snd].
  split; [reflexivity|]. rewrite version_run. cbn [client set__version _version].
  destruct (truthy v); [reflexivity|].
  exact (proj1 (version_fetch_effect lnd _)).
Qed.
